(** * MTRingBuffer: a slot-addressed ring buffer shared between threads

    Shallow embedding of [RingBuffer/MTRingBuffer.hpp] and
    [RingBuffer/MTRingBuffer.cpp], and the properties of the buffer that
    its specification states.

    Conventions of the embedding.
    - A C++ [int] is a [Z] in the range of a 32-bit signed integer.  Signed
      overflow, division by zero and out-of-bounds [memcpy]/[memset] are
      undefined behaviour in C++: the checked primitives below return
      [None] there, and a method that meets one has outcome [Undefined].
    - A [byte*] is the list of bytes of the array it points to.
    - Whether the allocator has the storage a [new] asks for is not the
      program's to decide: its answers are arguments of the constructor.
    - Every method locks [mMutex] for its whole body and gives it up only
      inside [QWaitCondition::wait], so one call of a method below is one
      atomic segment of the real execution.  A [QWaitCondition] is the list
      of the threads parked on it. *)

From Stdlib Require Import ZArith Lia Strings.Byte.
From stdpp Require Import base tactics option list list_numbers gmap.

Local Open Scope Z_scope.

(** ** C++ [int] arithmetic *)

Module Int.

Definition INT_MAX : Z := 2147483647.
Definition INT_MIN : Z := -2147483648.

Definition in_range (z : Z) : bool := (INT_MIN <=? z) && (z <=? INT_MAX).

Definition checked (z : Z) : option Z := if in_range z then Some z else None.

Definition add (a b : Z) : option Z := checked (a + b).
Definition sub (a b : Z) : option Z := checked (a - b).
Definition mul (a b : Z) : option Z := checked (a * b).

(** [/] and [%] truncate towards zero. *)
Definition div (a b : Z) : option Z :=
  if b =? 0 then None else checked (Z.quot a b).
Definition rem (a b : Z) : option Z :=
  if b =? 0 then None
  else if (a =? INT_MIN) && (b =? -1) then None
  else Some (Z.rem a b).

End Int.

(** ** Bytes and the [<cstring>] primitives *)

(** Modelled from the spec: the typedef [byte] of
    [MTAudioControllerGlobals.h], which is not part of the sources; the
    header's comment on [mRingBuffer] calls it an 8-bit datum. *)
Definition byte : Type := Byte.byte.

Definition zero : byte := x00.

(** The indeterminate value of a byte that [new byte[n]] has not
    initialised. *)
Definition indeterminate : byte := xcd.

Definition zeros (n : Z) : list byte := replicate (Z.to_nat n) zero.

Definition len (l : list byte) : Z := Z.of_nat (length l).

(** [memset(dst, 0, n)] *)
Definition memset0 (dst : list byte) (n : Z) : option (list byte) :=
  if (0 <=? n) && (n <=? len dst)
  then Some (zeros n ++ drop (Z.to_nat n) dst)
  else None.

(** [memcpy(dst + doff, src + soff, n)]; the two arrays never overlap
    here, the one being the caller's and the other the buffer's, or both
    distinct members of the buffer. *)
Definition memcpy (dst : list byte) (doff : Z) (src : list byte) (soff : Z)
    (n : Z) : option (list byte) :=
  if (0 <=? n) && (0 <=? doff) && (doff + n <=? len dst)
     && (0 <=? soff) && (soff + n <=? len src)
  then Some (take (Z.to_nat doff) dst
             ++ take (Z.to_nat n) (drop (Z.to_nat soff) src)
             ++ drop (Z.to_nat (doff + n)) dst)
  else None.

(** ** The object *)

Definition thread : Type := nat.

Record MTRingBuffer_t : Type := mkMTRingBuffer {
  mSlotSize : Z;
  mNumSlots : Z;
  mTotalSize : Z;
  mReadPosition : Z;
  mWritePosition : Z;
  mFullSlots : Z;
  mRingBuffer : list byte;
  mLastReadSlot : list byte;
  mBufferIsNotFull : list thread;
  mBufferIsNotEmpty : list thread
}.

Definition set_mReadPosition (v : Z) (b : MTRingBuffer_t) : MTRingBuffer_t :=
  mkMTRingBuffer (mSlotSize b) (mNumSlots b) (mTotalSize b) v
    (mWritePosition b) (mFullSlots b) (mRingBuffer b) (mLastReadSlot b)
    (mBufferIsNotFull b) (mBufferIsNotEmpty b).

Definition set_mWritePosition (v : Z) (b : MTRingBuffer_t) : MTRingBuffer_t :=
  mkMTRingBuffer (mSlotSize b) (mNumSlots b) (mTotalSize b) (mReadPosition b)
    v (mFullSlots b) (mRingBuffer b) (mLastReadSlot b)
    (mBufferIsNotFull b) (mBufferIsNotEmpty b).

Definition set_mFullSlots (v : Z) (b : MTRingBuffer_t) : MTRingBuffer_t :=
  mkMTRingBuffer (mSlotSize b) (mNumSlots b) (mTotalSize b) (mReadPosition b)
    (mWritePosition b) v (mRingBuffer b) (mLastReadSlot b)
    (mBufferIsNotFull b) (mBufferIsNotEmpty b).

Definition set_mRingBuffer (v : list byte) (b : MTRingBuffer_t) : MTRingBuffer_t :=
  mkMTRingBuffer (mSlotSize b) (mNumSlots b) (mTotalSize b) (mReadPosition b)
    (mWritePosition b) (mFullSlots b) v (mLastReadSlot b)
    (mBufferIsNotFull b) (mBufferIsNotEmpty b).

Definition set_mLastReadSlot (v : list byte) (b : MTRingBuffer_t) : MTRingBuffer_t :=
  mkMTRingBuffer (mSlotSize b) (mNumSlots b) (mTotalSize b) (mReadPosition b)
    (mWritePosition b) (mFullSlots b) (mRingBuffer b) v
    (mBufferIsNotFull b) (mBufferIsNotEmpty b).

Definition set_mBufferIsNotFull (v : list thread) (b : MTRingBuffer_t) : MTRingBuffer_t :=
  mkMTRingBuffer (mSlotSize b) (mNumSlots b) (mTotalSize b) (mReadPosition b)
    (mWritePosition b) (mFullSlots b) (mRingBuffer b) (mLastReadSlot b)
    v (mBufferIsNotEmpty b).

Definition set_mBufferIsNotEmpty (v : list thread) (b : MTRingBuffer_t) : MTRingBuffer_t :=
  mkMTRingBuffer (mSlotSize b) (mNumSlots b) (mTotalSize b) (mReadPosition b)
    (mWritePosition b) (mFullSlots b) (mRingBuffer b) (mLastReadSlot b)
    (mBufferIsNotFull b) v.

(** ** Outcomes of a call *)

(** The exceptions of the source: [std::bad_alloc], which [operator new[]]
    throws (an exception of a class derived from it, such as
    [std::bad_array_new_length], is a [bad_alloc] too), and the
    [std::length_error] the constructor names. *)
Inductive exn : Type :=
| bad_alloc
| length_error.

(** A call returns, or parks its thread in [wait] and leaves the object
    in the state [Waits] carries, or throws, or has no defined behaviour. *)
Inductive outcome (A : Type) : Type :=
| Returns (a : A)
| Waits (this : MTRingBuffer_t)
| Throws (e : exn)
| Undefined.

Arguments Returns {A} a.
Arguments Waits {A} this.
Arguments Throws {A} e.
Arguments Undefined {A}.

Definition bind {A B : Type} (m : outcome A) (k : A -> outcome B) : outcome B :=
  match m with
  | Returns a => k a
  | Waits this => Waits this
  | Throws e => Throws e
  | Undefined => Undefined
  end.

(** A checked primitive inside a method. *)
Definition def {A : Type} (o : option A) : outcome A :=
  match o with
  | Some a => Returns a
  | None => Undefined
  end.

#[global] Instance outcome_bind : MBind outcome := fun A B k m => bind m k.

(** [new byte[n]].  Whether the allocator has the storage is not the
    program's to decide: [granted] is its answer to this request.  A
    negative [n] becomes a [size_t] no allocator has, and a request that
    is not granted ends the same way, in [std::bad_alloc]; a granted array
    holds indeterminate bytes. *)
Definition new_bytes (granted : bool) (n : Z) : outcome (list byte) :=
  if n <? 0 then Throws bad_alloc
  else if granted then Returns (replicate (Z.to_nat n) indeterminate)
  else Throws bad_alloc.

(** ** The methods *)

(** [QWaitCondition::wait] called by thread [self] and
    [QWaitCondition::wakeAll]. *)
Definition wait (waiters : list thread) (self : thread) : list thread :=
  waiters ++ [self].

Definition wakeAll (waiters : list thread) : list thread := [].

(** [MTRingBuffer::MTRingBuffer(int SlotSize, int NumSlots)], run with
    the allocator's answers to its two requests, the ring first.  A
    [new]-expression never yields [NULL], so the test that guards the
    [throw] of the source is always false. *)
Definition MTRingBuffer_new (ring_granted last_granted : bool)
    (SlotSize NumSlots : Z) : outcome MTRingBuffer_t :=
  total ← def (Int.mul SlotSize NumSlots);
  ring ← new_bytes ring_granted total;
  last ← new_bytes last_granted SlotSize;
  ring ← def (memset0 ring total);
  last ← def (memset0 last SlotSize);
  half ← def (Int.div NumSlots 2);
  adv ← def (Int.mul half SlotSize);
  wpos ← def (Int.rem adv total);
  full ← def (Int.div NumSlots 2);
  Returns (mkMTRingBuffer SlotSize NumSlots total 0 wpos full ring last [] []).

(** The constructor when the allocator has both arrays.  With another
    allocator it throws [bad_alloc] and there is no object; what it
    returns, it returns here ([MTRingBuffer_new_Returns]). *)
Definition MTRingBuffer (SlotSize NumSlots : Z) : outcome MTRingBuffer_t :=
  MTRingBuffer_new true true SlotSize NumSlots.

(** [MTRingBuffer::setUnderrunReadSlot], the default of the virtual
    method: the result is the caller's array. *)
Definition setUnderrunReadSlot (ptrToReadSlot : list byte)
    (this : MTRingBuffer_t) : outcome (list byte) :=
  def (memset0 ptrToReadSlot (mSlotSize this)).

(** [MTRingBuffer::underrunReset] *)
Definition underrunReset (this : MTRingBuffer_t) : outcome MTRingBuffer_t :=
  ring ← def (memset0 (mRingBuffer this) (mTotalSize this));
  Returns (set_mRingBuffer ring this).

(** [MTRingBuffer::overflowReset] *)
Definition overflowReset (this : MTRingBuffer_t) : outcome MTRingBuffer_t :=
  half ← def (Int.div (mNumSlots this) 2);
  adv ← def (Int.mul half (mSlotSize this));
  sum ← def (Int.add (mReadPosition this) adv);
  rpos ← def (Int.rem sum (mTotalSize this));
  let this := set_mReadPosition rpos this in
  half ← def (Int.div (mNumSlots this) 2);
  full ← def (Int.sub (mFullSlots this) half);
  Returns (set_mFullSlots full this).

(** Lines 63 to 71 and 113 to 121: the copy into the ring, the advance of
    the write position and the wake-up, which the two inserts share word
    for word. *)
Definition insert_body (ptrToSlot : list byte) (this : MTRingBuffer_t)
    : outcome MTRingBuffer_t :=
  ring ← def (memcpy (mRingBuffer this) (mWritePosition this)
                 ptrToSlot 0 (mSlotSize this));
  let this := set_mRingBuffer ring this in
  sum ← def (Int.add (mWritePosition this) (mSlotSize this));
  wpos ← def (Int.rem sum (mTotalSize this));
  let this := set_mWritePosition wpos this in
  full ← def (Int.add (mFullSlots this) 1);
  let this := set_mFullSlots full this in
  Returns (set_mBufferIsNotEmpty (wakeAll (mBufferIsNotEmpty this)) this).

(** Lines 85 to 96 and 139 to 150: the copy out of the ring and into
    [mLastReadSlot], the advance of the read position and the wake-up,
    which the two reads share word for word.  The result pairs the
    caller's array with the object. *)
Definition read_body (ptrToReadSlot : list byte) (this : MTRingBuffer_t)
    : outcome (list byte * MTRingBuffer_t) :=
  out ← def (memcpy ptrToReadSlot 0 (mRingBuffer this) (mReadPosition this)
                (mSlotSize this));
  last ← def (memcpy (mLastReadSlot this) 0 (mRingBuffer this)
                 (mReadPosition this) (mSlotSize this));
  let this := set_mLastReadSlot last this in
  sum ← def (Int.add (mReadPosition this) (mSlotSize this));
  rpos ← def (Int.rem sum (mTotalSize this));
  let this := set_mReadPosition rpos this in
  full ← def (Int.sub (mFullSlots this) 1);
  let this := set_mFullSlots full this in
  Returns (out, set_mBufferIsNotFull (wakeAll (mBufferIsNotFull this)) this).

(** [MTRingBuffer::insertSlotBlocking], called by thread [self].  The
    [while] loop is the first statement under the lock, so a thread that
    [wait] has parked and a [wakeAll] has released resumes at the loop
    test: it runs this function again on the object as it then is. *)
Definition insertSlotBlocking (self : thread) (ptrToSlot : list byte)
    (this : MTRingBuffer_t) : outcome MTRingBuffer_t :=
  if mFullSlots this =? mNumSlots this
  then Waits (set_mBufferIsNotFull (wait (mBufferIsNotFull this) self) this)
  else insert_body ptrToSlot this.

(** [MTRingBuffer::readSlotBlocking], called by thread [self]. *)
Definition readSlotBlocking (self : thread) (ptrToReadSlot : list byte)
    (this : MTRingBuffer_t) : outcome (list byte * MTRingBuffer_t) :=
  if mFullSlots this =? 0
  then Waits (set_mBufferIsNotEmpty (wait (mBufferIsNotEmpty this) self) this)
  else read_body ptrToReadSlot this.

(** [MTRingBuffer::insertSlotNonBlocking] *)
Definition insertSlotNonBlocking (ptrToSlot : list byte)
    (this : MTRingBuffer_t) : outcome MTRingBuffer_t :=
  if mFullSlots this =? mNumSlots this
  then overflowReset this
  else insert_body ptrToSlot this.

(** [MTRingBuffer::readSlotNonBlocking] *)
Definition readSlotNonBlocking (ptrToReadSlot : list byte)
    (this : MTRingBuffer_t) : outcome (list byte * MTRingBuffer_t) :=
  if mFullSlots this =? 0
  then
    out ← setUnderrunReadSlot ptrToReadSlot this;
    this ← underrunReset this;
    Returns (out, this)
  else read_body ptrToReadSlot this.

(** ** The state invariant *)

(** The configuration: what the constructor fixes once and for all, and
    the sizes of the two arrays. *)
Record layout_ok (this : MTRingBuffer_t) : Prop := {
  slot_size_pos : 0 < mSlotSize this;
  num_slots_pos : 0 < mNumSlots this;
  total_size_eq : mTotalSize this = mSlotSize this * mNumSlots this;
  total_size_int : mTotalSize this <= Int.INT_MAX;
  ring_len : len (mRingBuffer this) = mTotalSize this;
  last_len : len (mLastReadSlot this) = mSlotSize this
}.

(** The invariant of the positions and of the count of full slots. *)
Record state_invariant (this : MTRingBuffer_t) : Prop := {
  read_pos_range : 0 <= mReadPosition this < mTotalSize this;
  read_pos_slot : mReadPosition this mod mSlotSize this = 0;
  write_pos_range : 0 <= mWritePosition this < mTotalSize this;
  write_pos_slot : mWritePosition this mod mSlotSize this = 0;
  full_slots_range : 0 <= mFullSlots this <= mNumSlots this;
  positions_congr :
    (mWritePosition this - mReadPosition this) mod mTotalSize this
    = (mFullSlots this * mSlotSize this) mod mTotalSize this
}.

Definition wf (this : MTRingBuffer_t) : Prop :=
  layout_ok this /\ state_invariant this.

(** A caller's array of exactly one slot, as the header asks of callers. *)
Definition slot_of (this : MTRingBuffer_t) (buf : list byte) : Prop :=
  len buf = mSlotSize this.

(** ** The states the methods lead to *)

(** The slot at the read position. *)
Definition front (this : MTRingBuffer_t) : list byte :=
  take (Z.to_nat (mSlotSize this))
    (drop (Z.to_nat (mReadPosition this)) (mRingBuffer this)).

(** The state after an insert that finds room. *)
Definition inserted (x : list byte) (this : MTRingBuffer_t) : MTRingBuffer_t :=
  mkMTRingBuffer (mSlotSize this) (mNumSlots this) (mTotalSize this)
    (mReadPosition this)
    ((mWritePosition this + mSlotSize this) mod mTotalSize this)
    (mFullSlots this + 1)
    (take (Z.to_nat (mWritePosition this)) (mRingBuffer this) ++ x
     ++ drop (Z.to_nat (mWritePosition this + mSlotSize this)) (mRingBuffer this))
    (mLastReadSlot this) (mBufferIsNotFull this) [].

(** The state after a read that finds a slot. *)
Definition consumed (this : MTRingBuffer_t) : MTRingBuffer_t :=
  mkMTRingBuffer (mSlotSize this) (mNumSlots this) (mTotalSize this)
    ((mReadPosition this + mSlotSize this) mod mTotalSize this)
    (mWritePosition this)
    (mFullSlots this - 1)
    (mRingBuffer this) (front this) [] (mBufferIsNotEmpty this).

(** The state after the overflow recovery. *)
Definition overflowed (this : MTRingBuffer_t) : MTRingBuffer_t :=
  mkMTRingBuffer (mSlotSize this) (mNumSlots this) (mTotalSize this)
    ((mReadPosition this + mNumSlots this / 2 * mSlotSize this)
     mod mTotalSize this)
    (mWritePosition this)
    (mFullSlots this - mNumSlots this / 2)
    (mRingBuffer this) (mLastReadSlot this)
    (mBufferIsNotFull this) (mBufferIsNotEmpty this).

(** The state after the underrun recovery. *)
Definition cleared (this : MTRingBuffer_t) : MTRingBuffer_t :=
  set_mRingBuffer (zeros (mTotalSize this)) this.

(** ** The queue the ring holds *)

(** The slot that starts at byte [p] of the ring. *)
Definition slot_from (this : MTRingBuffer_t) (p : Z) : list byte :=
  take (Z.to_nat (mSlotSize this)) (drop (Z.to_nat p) (mRingBuffer this)).

(** The full slots, oldest first: the [mFullSlots] slots from the read
    position on, around the end of the ring. *)
Definition queue (this : MTRingBuffer_t) : list (list byte) :=
  (fun k => slot_from this
              ((mReadPosition this + k * mSlotSize this) mod mTotalSize this))
  <$> seqZ 0 (mFullSlots this).

(** ** Calls and straight-line callers *)

Inductive call : Type :=
| Insert (blocking : bool) (ptrToSlot : list byte)
| Read (blocking : bool) (ptrToReadSlot : list byte).

(** One call by thread [self]; the result pairs the caller's array as
    the call leaves it with the object. *)
Definition run_call (self : thread) (c : call) (this : MTRingBuffer_t)
    : outcome (list byte * MTRingBuffer_t) :=
  match c with
  | Insert true x => this ← insertSlotBlocking self x this; Returns (x, this)
  | Insert false x => this ← insertSlotNonBlocking x this; Returns (x, this)
  | Read true out => readSlotBlocking self out this
  | Read false out => readSlotNonBlocking out this
  end.

(** A thread that makes the calls [cs] one after the other, with no
    other thread at work; the result lists what the reads have put in
    their arrays.  A call that waits leaves the thread parked for good. *)
Fixpoint run_calls (self : thread) (cs : list call) (this : MTRingBuffer_t)
    : outcome (list (list byte) * MTRingBuffer_t) :=
  match cs with
  | [] => Returns ([], this)
  | c :: cs =>
      r ← run_call self c this;
      rs ← run_calls self cs r.2;
      Returns (match c with
               | Read _ _ => r.1 :: rs.1
               | Insert _ _ => rs.1
               end, rs.2)
  end.

(** The caller's array of a call. *)
Definition array (c : call) : list byte :=
  match c with
  | Insert _ x => x
  | Read _ out => out
  end.

(** The object as a call leaves it, when the call returns or waits. *)
Definition state_after {A : Type} (r : outcome (A * MTRingBuffer_t))
    : option MTRingBuffer_t :=
  match r with
  | Returns a => Some a.2
  | Waits this => Some this
  | Throws _ | Undefined => None
  end.

(** The sum that [overflowReset] forms before it reduces it modulo the
    total size is an [int]. *)
Definition int_safe (this : MTRingBuffer_t) : Prop :=
  mReadPosition this + mNumSlots this / 2 * mSlotSize this <= Int.INT_MAX.

(** A call returns, or waits, or (the overflow recovery alone) meets the
    overflow of an [int]; each outcome with the state it leaves. *)
Inductive call_outcome (self : thread) (this : MTRingBuffer_t)
    : call -> outcome (list byte * MTRingBuffer_t) -> Prop :=
| insert_room b x :
    mFullSlots this < mNumSlots this ->
    call_outcome self this (Insert b x) (Returns (x, inserted x this))
| insert_waits x :
    mFullSlots this = mNumSlots this ->
    call_outcome self this (Insert true x)
      (Waits (set_mBufferIsNotFull (wait (mBufferIsNotFull this) self) this))
| insert_overflow x :
    mFullSlots this = mNumSlots this -> int_safe this ->
    call_outcome self this (Insert false x) (Returns (x, overflowed this))
| insert_overflow_undefined x :
    mFullSlots this = mNumSlots this -> ~ int_safe this ->
    call_outcome self this (Insert false x) Undefined
| read_some b out :
    0 < mFullSlots this ->
    call_outcome self this (Read b out) (Returns (front this, consumed this))
| read_waits out :
    mFullSlots this = 0 ->
    call_outcome self this (Read true out)
      (Waits (set_mBufferIsNotEmpty (wait (mBufferIsNotEmpty this) self) this))
| read_underrun out :
    mFullSlots this = 0 ->
    call_outcome self this (Read false out)
      (Returns (zeros (mSlotSize this), cleared this)).

(** ** Threads

    Several threads call the methods of one object.  [mMutex] makes each
    call one atomic step, except that a blocking call that finds its
    guard true parks its thread in [wait] and gives the mutex up: the
    thread is then in the queue of the condition, and takes no step until
    a [wakeAll] on that condition has emptied the queue
    ([QWaitCondition::wait] returns on a wake-up only); it then resumes at
    the loop test, that is, runs its call again. *)

Record system : Type := mkSystem {
  object : MTRingBuffer_t;
  calling : gmap thread call
}.

Definition parked (this : MTRingBuffer_t) (t : thread) : Prop :=
  t ∈ mBufferIsNotFull this \/ t ∈ mBufferIsNotEmpty this.

Inductive event : Type :=
| Begins (t : thread) (c : call)
| Parks (t : thread) (c : call)
| Completes (t : thread) (c : call) (buf : list byte).

Inductive step : system -> event -> system -> Prop :=
| step_begins this calls t c :
    calls !! t = None ->
    step (mkSystem this calls) (Begins t c) (mkSystem this (<[t:=c]> calls))
| step_parks this calls t c this' :
    calls !! t = Some c -> ~ parked this t ->
    run_call t c this = Waits this' ->
    step (mkSystem this calls) (Parks t c) (mkSystem this' calls)
| step_completes this calls t c buf this' :
    calls !! t = Some c -> ~ parked this t ->
    run_call t c this = Returns (buf, this') ->
    step (mkSystem this calls) (Completes t c buf)
      (mkSystem this' (delete t calls)).

Inductive exec : system -> list event -> system -> Prop :=
| exec_nil sys : exec sys [] sys
| exec_cons sys e sys1 tr sys2 :
    step sys e sys1 -> exec sys1 tr sys2 -> exec sys (e :: tr) sys2.

(** A step in which a read takes a slot off the queue. *)
Definition frees_slot (sys : system) (e : event) (sys' : system) : Prop :=
  exists t b out buf,
    e = Completes t (Read b out) buf
    /\ mFullSlots (object sys) <> 0
    /\ mFullSlots (object sys') = mFullSlots (object sys) - 1.

(** A step in which an insert adds a slot to the queue. *)
Definition supplies_slot (sys : system) (e : event) (sys' : system) : Prop :=
  exists t b x buf,
    e = Completes t (Insert b x) buf
    /\ mFullSlots (object sys) <> mNumSlots (object sys)
    /\ mFullSlots (object sys') = mFullSlots (object sys) + 1.

(** The data members: all but the two wait queues. *)
Definition data (this : MTRingBuffer_t) : MTRingBuffer_t :=
  set_mBufferIsNotFull [] (set_mBufferIsNotEmpty [] this).

(** ** Example states *)

(** The buffer of four slots of four bytes once two inserts have filled
    it: the scenario of the specification. *)
Definition full_4x4 : MTRingBuffer_t :=
  mkMTRingBuffer 4 4 16 0 0 4 (zeros 16) (zeros 4) [] [].

(** A buffer of two one-byte slots that its reader has emptied. *)
Definition empty_1x2 : MTRingBuffer_t :=
  mkMTRingBuffer 1 2 2 1 1 0 (zeros 2) (zeros 1) [] [].

(** A full buffer of a single one-byte slot. *)
Definition full_1x1 : MTRingBuffer_t :=
  mkMTRingBuffer 1 1 1 0 0 1 (zeros 1) (zeros 1) [] [].

(** Thread 1 inside a blocking insert on the full one-slot buffer,
    before and after it has parked, and a run in which thread 2 then
    reads the slot and thread 1 completes. *)
Definition insert_pending : gmap thread call :=
  {[ 1%nat := Insert true [x07] ]}.

Definition sys_full : system := mkSystem full_1x1 insert_pending.

Definition sys_parked : system :=
  mkSystem (set_mBufferIsNotFull [1%nat] full_1x1) insert_pending.

Definition rendezvous : list event :=
  [Begins 2%nat (Read false [xff]);
   Completes 2%nat (Read false [xff]) [x00];
   Completes 1%nat (Insert true [x07]) [x07]].

(** ** A bounded queue with the recoveries of the non-blocking calls

    What the calls do to the queue of full slots, read off the methods:
    [s] is the slot size, [n] the number of slots, and [None] stands for
    a call that waits. *)

Definition fifo_call (s n : Z) (q : list (list byte)) (c : call)
    : option (list byte * list (list byte)) :=
  match c with
  | Insert blocking x =>
      if Z.of_nat (length q) =? n
      then if blocking then None else Some (x, drop (Z.to_nat (n / 2)) q)
      else Some (x, q ++ [x])
  | Read blocking out =>
      match q with
      | [] => if blocking then None else Some (zeros s, [])
      | y :: q => Some (y, q)
      end
  end.

Fixpoint fifo_calls (s n : Z) (q : list (list byte)) (cs : list call)
    : option (list (list byte) * list (list byte)) :=
  match cs with
  | [] => Some ([], q)
  | c :: cs =>
      r ← fifo_call s n q c;
      rs ← fifo_calls s n r.2 cs;
      Some (match c with
            | Read _ _ => r.1 :: rs.1
            | Insert _ _ => rs.1
            end, rs.2)
  end.

(** A producer and a consumer in step: the calls of [cs] and of [ds]
    taken in turn, one of [cs] first. *)
Fixpoint alternate (cs ds : list call) : list call :=
  match cs, ds with
  | c :: cs, d :: ds => c :: d :: alternate cs ds
  | _, _ => []
  end.

(** The caller's array of every call has the size of a slot. *)
Definition arrays_ok (this : MTRingBuffer_t) (cs : list call) : Prop :=
  Forall (fun c => slot_of this (array c)) cs.

(** A full ring of [INT_MAX] one-byte slots whose read position is at
    the last slot. *)
Definition full_2G : MTRingBuffer_t :=
  mkMTRingBuffer 1 2147483647 2147483647 2147483646 2147483646 2147483647
    (zeros 2147483647) (zeros 1) [] [].

(** ** Threads and the invariants of the object *)

(** No thread waits for a slot while the buffer holds one. *)
Definition readers_awake (this : MTRingBuffer_t) : Prop :=
  mBufferIsNotEmpty this <> [] -> mFullSlots this = 0.

(** The arrays of the calls the threads are in, and of the calls that
    begin in a trace, have the size of a slot. *)
Definition pending_ok (sys : system) : Prop :=
  map_Forall (fun _ c => slot_of (object sys) (array c)) (calling sys).

Definition begins_ok (s : Z) (tr : list event) : Prop :=
  Forall (fun e => match e with
                   | Begins _ c => len (array c) = s
                   | Parks _ _ | Completes _ _ _ => True
                   end) tr.

(** No thread waits for room while the buffer is empty. *)
Definition writers_have_cause (this : MTRingBuffer_t) : Prop :=
  mBufferIsNotFull this <> [] -> 1 <= mFullSlots this.

(** Thread 1 parked in a blocking insert on the full buffer of four
    slots, and thread 2 about to make a non-blocking insert. *)
Definition sys_overflow : system :=
  mkSystem (set_mBufferIsNotFull [1%nat] full_4x4)
    (<[2%nat := Insert false (zeros 4)]>
       {[ 1%nat := Insert true (zeros 4) ]}).

(** ** A caller that fills a large ring *)

(** [k] blocking reads, then [k] blocking inserts, with zeroed arrays of
    [s] bytes. *)
Definition blocking_reads (k : nat) (s : Z) : list call :=
  zip_with Read (replicate k true) (replicate k (zeros s)).

Definition blocking_inserts (k : nat) (s : Z) : list call :=
  zip_with Insert (replicate k true) (replicate k (zeros s)).

(** On the buffer [MTRingBuffer(1048576, 1500)] returns: the reads that
    empty it, the inserts that fill it, and 549 reads and inserts more,
    none of which waits.  They leave the buffer full with the read
    position at slot 1299. *)
Definition fill_1500x1M : list call :=
  blocking_reads 750 1048576 ++ blocking_inserts 1500 1048576
  ++ blocking_reads 549 1048576 ++ blocking_inserts 549 1048576.

(** ** Proof tactics *)

Ltac run := cbn [def mbind outcome_bind bind].

Ltac int_bounds :=
  assert (Int.INT_MAX = 2147483647) as HINT_MAX by reflexivity;
  assert (Int.INT_MIN = -2147483648) as HINT_MIN by reflexivity.

Ltac destruct_wf H :=
  destruct H as [[Hs Hn HT HTmax Hring Hlast] [Hr Hrs Hw Hws Hf Hc]];
  rewrite HT in *;
  match type of HTmax with
  | ?s * ?n <= _ =>
      assert (s <= s * n) as Hs_le by nia;
      assert (n <= s * n) as Hn_le by nia
  end.

Ltac fields :=
  cbn [mSlotSize mNumSlots mTotalSize mReadPosition mWritePosition mFullSlots
       mRingBuffer mLastReadSlot mBufferIsNotFull mBufferIsNotEmpty
       set_mReadPosition set_mWritePosition set_mFullSlots set_mRingBuffer
       set_mLastReadSlot set_mBufferIsNotFull set_mBufferIsNotEmpty] in *.

Ltac step_def :=
  match goal with
  | |- context [def ?o] => destruct o eqn:?; run; fields
  end.

(** Well-formedness of a concrete state, by evaluation. *)
Ltac wf_concrete :=
  split; constructor; vm_compute; repeat split;
  (reflexivity || (intros; discriminate)).
(** ** Checked arithmetic where it is defined *)

Lemma checked_Some z :
  Int.INT_MIN <= z <= Int.INT_MAX -> Int.checked z = Some z.
Proof.
  intros [Hlo Hhi]. unfold Int.checked, Int.in_range.
  apply Z.leb_le in Hlo, Hhi. now rewrite Hlo, Hhi.
Qed.

Lemma checked_inv z r : Int.checked z = Some r -> r = z /\ Int.INT_MIN <= z <= Int.INT_MAX.
Proof.
  unfold Int.checked, Int.in_range.
  destruct (Int.INT_MIN <=? z) eqn:Hlo, (z <=? Int.INT_MAX) eqn:Hhi; simpl;
    intros [= <-].
  apply Z.leb_le in Hlo, Hhi. lia.
Qed.

Lemma add_Some a b :
  Int.INT_MIN <= a + b <= Int.INT_MAX -> Int.add a b = Some (a + b).
Proof. apply checked_Some. Qed.

Lemma sub_Some a b :
  Int.INT_MIN <= a - b <= Int.INT_MAX -> Int.sub a b = Some (a - b).
Proof. apply checked_Some. Qed.

Lemma mul_Some a b :
  Int.INT_MIN <= a * b <= Int.INT_MAX -> Int.mul a b = Some (a * b).
Proof. apply checked_Some. Qed.

Lemma half_Some n :
  0 <= n <= Int.INT_MAX -> Int.div n 2 = Some (n / 2).
Proof.
  intros Hn. unfold Int.div. simpl.
  rewrite Z.quot_div_nonneg by lia.
  apply checked_Some. unfold Int.INT_MIN, Int.INT_MAX in *.
  pose proof (Z.div_pos n 2). pose proof (Z.div_le_upper_bound n 2 n).
  lia.
Qed.

Lemma rem_Some a b :
  0 <= a -> 0 < b -> Int.rem a b = Some (a mod b).
Proof.
  intros Ha Hb. unfold Int.rem.
  destruct (b =? 0) eqn:E; [apply Z.eqb_eq in E; lia|].
  destruct (a =? Int.INT_MIN) eqn:E1.
  - apply Z.eqb_eq in E1. unfold Int.INT_MIN in E1. lia.
  - simpl. now rewrite Z.rem_mod_nonneg by lia.
Qed.

(** ** The [<cstring>] primitives where they are defined *)

Lemma len_nonneg l : 0 <= len l.
Proof. unfold len. lia. Qed.

Lemma len_zeros n : 0 <= n -> len (zeros n) = n.
Proof. intros Hn. unfold len, zeros. rewrite length_replicate. lia. Qed.

Lemma len_app l k : len (l ++ k) = len l + len k.
Proof. unfold len. rewrite length_app. lia. Qed.

Lemma memset0_all dst n :
  len dst = n -> memset0 dst n = Some (zeros n).
Proof.
  intros Hlen. unfold memset0.
  pose proof (len_nonneg dst) as Hnn.
  destruct (0 <=? n) eqn:H0; [|apply Z.leb_gt in H0; lia].
  destruct (n <=? len dst) eqn:H1; [|apply Z.leb_gt in H1; lia].
  simpl. rewrite drop_ge, app_nil_r; [done|]. unfold len in Hlen. lia.
Qed.

Lemma memset0_inv dst n r :
  memset0 dst n = Some r ->
  0 <= n <= len dst /\ r = zeros n ++ drop (Z.to_nat n) dst.
Proof.
  unfold memset0.
  destruct (0 <=? n) eqn:H0, (n <=? len dst) eqn:H1; simpl; intros [= <-].
  apply Z.leb_le in H0, H1. auto.
Qed.

Lemma memcpy_Some dst doff src soff n :
  0 <= n -> 0 <= doff -> doff + n <= len dst ->
  0 <= soff -> soff + n <= len src ->
  memcpy dst doff src soff n
  = Some (take (Z.to_nat doff) dst
          ++ take (Z.to_nat n) (drop (Z.to_nat soff) src)
          ++ drop (Z.to_nat (doff + n)) dst).
Proof.
  intros Hn Hd Hdn Hs Hsn. unfold memcpy.
  apply Z.leb_le in Hn, Hd, Hdn, Hs, Hsn.
  now rewrite Hn, Hd, Hdn, Hs, Hsn.
Qed.

Lemma memcpy_inv dst doff src soff n r :
  memcpy dst doff src soff n = Some r ->
  (0 <= n /\ 0 <= doff /\ doff + n <= len dst /\ 0 <= soff /\ soff + n <= len src)
  /\ r = take (Z.to_nat doff) dst
         ++ take (Z.to_nat n) (drop (Z.to_nat soff) src)
         ++ drop (Z.to_nat (doff + n)) dst.
Proof.
  unfold memcpy.
  destruct (0 <=? n) eqn:Hn, (0 <=? doff) eqn:Hd, (doff + n <=? len dst) eqn:Hdn,
    (0 <=? soff) eqn:Hs, (soff + n <=? len src) eqn:Hsn; simpl; intros [= <-].
  apply Z.leb_le in Hn, Hd, Hdn, Hs, Hsn. repeat split; assumption || reflexivity.
Qed.

Lemma len_memcpy dst doff src soff n r :
  memcpy dst doff src soff n = Some r -> len r = len dst.
Proof.
  intros H. apply memcpy_inv in H as [(Hn & Hd & Hdn & Hs & Hsn) ->].
  unfold len in *.
  rewrite !length_app, !length_take, !length_drop. lia.
Qed.

(** What a whole-array copy leaves in an array of exactly [n] bytes. *)
Lemma memcpy_whole dst src soff n :
  len dst = n -> 0 <= soff -> soff + n <= len src ->
  memcpy dst 0 src soff n
  = Some (take (Z.to_nat n) (drop (Z.to_nat soff) src)).
Proof.
  intros Hlen Hs Hsn. pose proof (len_nonneg dst).
  rewrite memcpy_Some by lia. f_equal.
  change (Z.to_nat 0) with 0%nat. rewrite take_0, Z.add_0_l. simpl.
  rewrite (drop_ge dst) by (unfold len in Hlen; lia). apply app_nil_r.
Qed.

(** ** Construction *)

Lemma new_bytes_Returns n :
  0 <= n -> new_bytes true n = Returns (replicate (Z.to_nat n) indeterminate).
Proof.
  intros Hn. unfold new_bytes.
  destruct (n <? 0) eqn:E; [apply Z.ltb_lt in E; lia|done].
Qed.

Lemma len_replicate n (x : byte) : 0 <= n -> len (replicate (Z.to_nat n) x) = n.
Proof. intros Hn. unfold len. rewrite length_replicate. lia. Qed.

Lemma half_mul_lt s n : 0 < s -> 0 < n -> 0 <= n / 2 * s < s * n.
Proof.
  intros Hs Hn.
  assert (0 <= n / 2 < n) as [? ?].
  { split; [apply Z.div_pos; lia | apply Z.div_lt; lia]. }
  nia.
Qed.

(** The constructor on a configuration whose total size is an [int]. *)
Lemma MTRingBuffer_Returns s n :
  0 < s -> 0 < n -> s * n <= Int.INT_MAX ->
  MTRingBuffer s n
  = Returns (mkMTRingBuffer s n (s * n) 0 (n / 2 * s) (n / 2)
               (zeros (s * n)) (zeros s) [] []).
Proof.
  intros Hs Hn Hmax. unfold MTRingBuffer, MTRingBuffer_new.
  assert (Int.INT_MAX = 2147483647) as HM by reflexivity.
  assert (Int.INT_MIN = -2147483648) as Hm by reflexivity.
  pose proof (half_mul_lt s n Hs Hn) as Hh.
  rewrite mul_Some by nia. cbn [def mbind outcome_bind bind].
  rewrite !new_bytes_Returns by nia. cbn [mbind outcome_bind bind].
  rewrite !memset0_all by (apply len_replicate; nia).
  cbn [def mbind outcome_bind bind].
  rewrite half_Some by nia. cbn [def mbind outcome_bind bind].
  rewrite mul_Some by nia. cbn [def mbind outcome_bind bind].
  rewrite rem_Some by nia. cbn [def mbind outcome_bind bind].
  rewrite Z.mod_small by lia. reflexivity.
Qed.

(** Whatever the constructor returns is the half-full, zeroed buffer. *)
Lemma MTRingBuffer_inv s n this :
  0 < s -> 0 < n -> MTRingBuffer s n = Returns this ->
  s * n <= Int.INT_MAX.
Proof.
  intros Hs Hn. unfold MTRingBuffer, MTRingBuffer_new.
  destruct (Int.mul s n) as [t|] eqn:E; [|discriminate].
  apply checked_inv in E as [-> [_ ?]]. done.
Qed.

(** The allocator decides only whether there is an object: what the
    constructor returns under any answers, it returns when both arrays
    are granted. *)
Lemma MTRingBuffer_new_Returns ring_granted last_granted s n this :
  MTRingBuffer_new ring_granted last_granted s n = Returns this ->
  ring_granted = true /\ last_granted = true
  /\ MTRingBuffer s n = Returns this.
Proof.
  unfold MTRingBuffer, MTRingBuffer_new, new_bytes.
  destruct (Int.mul s n) as [t|]; [|discriminate].
  cbn [def mbind outcome_bind bind].
  destruct (t <? 0); [discriminate|].
  destruct ring_granted; [|discriminate].
  cbn [mbind outcome_bind bind].
  destruct (s <? 0); [discriminate|].
  destruct last_granted; [|discriminate].
  intros H. done.
Qed.

(** A refused array ends the constructor in [std::bad_alloc]. *)
Lemma MTRingBuffer_new_refused ring_granted last_granted s n :
  0 < s -> 0 < n -> s * n <= Int.INT_MAX ->
  ring_granted = false \/ last_granted = false ->
  MTRingBuffer_new ring_granted last_granted s n = Throws bad_alloc.
Proof.
  intros Hs Hn Hmax Hno. unfold MTRingBuffer_new, new_bytes.
  assert (Int.INT_MAX = 2147483647) as HM by reflexivity.
  assert (Int.INT_MIN = -2147483648) as Hm by reflexivity.
  rewrite mul_Some by nia. cbn [def mbind outcome_bind bind].
  destruct (s * n <? 0) eqn:Et; [apply Z.ltb_lt in Et; nia|].
  destruct ring_granted; [|reflexivity].
  cbn [mbind outcome_bind bind].
  destruct (s <? 0) eqn:Es; [reflexivity|].
  destruct last_granted; [|reflexivity].
  destruct Hno; discriminate.
Qed.

(** No answer of the allocator and no sizes lead to the
    [std::length_error] of line 28. *)
Lemma MTRingBuffer_new_no_length_error ring_granted last_granted s n :
  MTRingBuffer_new ring_granted last_granted s n <> Throws length_error.
Proof.
  unfold MTRingBuffer_new, new_bytes.
  destruct (Int.mul s n) as [t|]; [|discriminate].
  cbn [def mbind outcome_bind bind].
  destruct (t <? 0); [discriminate|].
  destruct ring_granted; [|discriminate].
  cbn [mbind outcome_bind bind].
  destruct (s <? 0); [discriminate|].
  destruct last_granted; [|discriminate].
  cbn [mbind outcome_bind bind].
  repeat match goal with
         | |- def ?o ≫= _ <> _ =>
             destruct o; cbn [def mbind outcome_bind bind]; [|discriminate]
         end.
  discriminate.
Qed.

(** ** Slot arithmetic *)

Section slot_arithmetic.
Variables s n : Z.
Hypothesis s_pos : 0 < s.
Hypothesis n_pos : 0 < n.

Lemma total_pos : 0 < s * n.
Proof using s_pos n_pos. nia. Qed.

(** A position is the start of one of the [n] slots. *)
Lemma pos_slot_index p :
  0 <= p < s * n -> p mod s = 0 -> p = s * (p / s) /\ 0 <= p / s < n.
Proof using s_pos n_pos.
  intros Hp Hm.
  assert (p = s * (p / s)) as E by (apply Z_div_exact_full_2; lia).
  split; [exact E|]. nia.
Qed.

Lemma pos_step_le p : 0 <= p < s * n -> p mod s = 0 -> p + s <= s * n.
Proof using s_pos n_pos.
  intros Hp Hm. destruct (pos_slot_index p Hp Hm) as [E ?]. nia.
Qed.

Lemma advance_range p d : 0 <= (p + d) mod (s * n) < s * n.
Proof using s_pos n_pos. apply Z.mod_pos_bound, total_pos. Qed.

Lemma advance_slot p k :
  p mod s = 0 -> ((p + k * s) mod (s * n)) mod s = 0.
Proof using s_pos n_pos.
  intros Hm.
  rewrite Z.mod_mod_divide by (exists n; ring).
  rewrite Z.mod_add by lia. exact Hm.
Qed.

Lemma congr_shift a b d T :
  a mod T = b mod T -> (a + d) mod T = (b + d) mod T.
Proof.
  intros E. rewrite (Zplus_mod a), (Zplus_mod b), E. reflexivity.
Qed.

(** The congruence of the invariant after the write position has
    moved one slot on. *)
Lemma congr_insert w r f :
  (w - r) mod (s * n) = (f * s) mod (s * n) ->
  ((w + s) mod (s * n) - r) mod (s * n) = ((f + 1) * s) mod (s * n).
Proof.
  intros E. rewrite Zminus_mod_idemp_l.
  replace (w + s - r) with (w - r + s) by ring.
  replace ((f + 1) * s) with (f * s + s) by ring.
  now apply congr_shift.
Qed.

(** After the read position has moved [k] slots on. *)
Lemma congr_read w r f k :
  (w - r) mod (s * n) = (f * s) mod (s * n) ->
  (w - (r + k * s) mod (s * n)) mod (s * n) = ((f - k) * s) mod (s * n).
Proof.
  intros E. rewrite Zminus_mod_idemp_r.
  replace (w - (r + k * s)) with (w - r + - (k * s)) by ring.
  replace ((f - k) * s) with (f * s + - (k * s)) by ring.
  now apply congr_shift.
Qed.
End slot_arithmetic.

(** ** What each method does on a well-formed object *)

Lemma slot_prefix (x : list byte) s : len x = s -> take (Z.to_nat s) (drop (Z.to_nat 0) x) = x.
Proof.
  intros H. change (Z.to_nat 0) with 0%nat. rewrite drop_0.
  apply take_ge. unfold len in H. lia.
Qed.

Lemma insert_body_Returns x this :
  wf this -> slot_of this x -> mFullSlots this < mNumSlots this ->
  insert_body x this = Returns (inserted x this).
Proof.
  intros Hwf Hx Hroom. destruct_wf Hwf. unfold slot_of in Hx.
  int_bounds. unfold insert_body. fields.
  pose proof (pos_step_le _ _ Hs Hn _ Hw Hws) as Hstep.
  rewrite memcpy_Some by lia. run.
  rewrite slot_prefix by done.
  rewrite !add_Some by lia. run.
  rewrite rem_Some by lia. run.
  reflexivity.
Qed.


Lemma read_body_Returns out this :
  wf this -> slot_of this out -> 0 < mFullSlots this ->
  read_body out this = Returns (front this, consumed this).
Proof.
  intros Hwf Hx Hsome. destruct_wf Hwf. unfold slot_of in Hx.
  int_bounds. unfold read_body. fields.
  pose proof (pos_step_le _ _ Hs Hn _ Hr Hrs) as Hstep.
  rewrite !memcpy_whole by lia. run.
  rewrite add_Some by lia. run.
  rewrite rem_Some by lia. run.
  rewrite sub_Some by lia. run.
  reflexivity.
Qed.

Lemma overflowReset_Returns this :
  wf this ->
  mReadPosition this + mNumSlots this / 2 * mSlotSize this <= Int.INT_MAX ->
  overflowReset this = Returns (overflowed this).
Proof.
  intros Hwf Hmax. destruct_wf Hwf.
  int_bounds. unfold overflowReset. fields.
  pose proof (half_mul_lt _ _ Hs Hn) as Hh.
  assert (0 <= mNumSlots this / 2 < mNumSlots this) as Hhalf.
  { split; [apply Z.div_pos; lia | apply Z.div_lt; lia]. }
  rewrite !half_Some by lia. run.
  rewrite mul_Some by lia. run.
  rewrite add_Some by lia. run.
  rewrite rem_Some by lia. run.
  rewrite sub_Some by lia. run.
  reflexivity.
Qed.

Lemma underrun_Returns out this :
  wf this -> slot_of this out ->
  (out' ← setUnderrunReadSlot out this;
   this' ← underrunReset this;
   Returns (out', this'))
  = Returns (zeros (mSlotSize this), cleared this).
Proof.
  intros Hwf Hx. destruct_wf Hwf. unfold slot_of in Hx.
  unfold setUnderrunReadSlot, underrunReset.
  rewrite !memset0_all by lia. run. reflexivity.
Qed.

(** ** The methods keep the object well formed *)

Lemma wf_inserted x this :
  wf this -> slot_of this x -> mFullSlots this < mNumSlots this ->
  wf (inserted x this).
Proof.
  intros Hwf Hx Hroom. pose proof Hwf as Hwf'. destruct_wf Hwf.
  unfold slot_of in Hx.
  pose proof (pos_step_le _ _ Hs Hn _ Hw Hws) as Hstep.
  split; constructor; unfold inserted; fields; rewrite ?HT; try lia.
  - rewrite !len_app. unfold len in *.
    rewrite length_take, length_drop. lia.
  - apply advance_range; lia.
  - replace (mWritePosition this + mSlotSize this)
      with (mWritePosition this + 1 * mSlotSize this) by ring.
    apply advance_slot; lia.
  - now apply congr_insert.
Qed.

Lemma len_front this : wf this -> len (front this) = mSlotSize this.
Proof.
  intros Hwf. destruct_wf Hwf.
  pose proof (pos_step_le _ _ Hs Hn _ Hr Hrs) as Hstep.
  unfold front, len in *. rewrite length_take, length_drop. lia.
Qed.

Lemma wf_consumed this :
  wf this -> 0 < mFullSlots this -> wf (consumed this).
Proof.
  intros Hwf Hsome. pose proof (len_front this Hwf) as Hfront.
  destruct_wf Hwf.
  split; constructor; unfold consumed; fields; rewrite ?HT; try lia.
  - apply advance_range; lia.
  - replace (mReadPosition this + mSlotSize this)
      with (mReadPosition this + 1 * mSlotSize this) by ring.
    apply advance_slot; lia.
  - replace (mReadPosition this + mSlotSize this)
      with (mReadPosition this + 1 * mSlotSize this) by ring.
    now apply congr_read.
Qed.

Lemma wf_overflowed this :
  wf this -> mFullSlots this = mNumSlots this -> wf (overflowed this).
Proof.
  intros Hwf Hfull. destruct_wf Hwf.
  assert (0 <= mNumSlots this / 2 < mNumSlots this) as Hhalf.
  { split; [apply Z.div_pos; lia | apply Z.div_lt; lia]. }
  split; constructor; unfold overflowed; fields; rewrite ?HT; try lia.
  - apply advance_range; lia.
  - apply advance_slot; lia.
  - now apply congr_read.
Qed.

Lemma wf_cleared this : wf this -> wf (cleared this).
Proof.
  intros Hwf. destruct_wf Hwf.
  split; constructor; unfold cleared; fields; rewrite ?HT; try lia; try done.
  apply len_zeros. lia.
Qed.

Lemma wf_set_mBufferIsNotFull q this :
  wf this -> wf (set_mBufferIsNotFull q this).
Proof. intros [[] []]. split; constructor; done. Qed.

Lemma wf_set_mBufferIsNotEmpty q this :
  wf this -> wf (set_mBufferIsNotEmpty q this).
Proof. intros [[] []]. split; constructor; done. Qed.


(** ** Windows of the ring *)

Section windows.
Context {A : Type}.
Implicit Types l x : list A.

(** Bytes of an array after [x] has been copied over it at offset [w]. *)
Lemma lookup_overwrite l x (w i : nat) :
  (w + length x <= length l)%nat ->
  (take w l ++ x ++ drop (w + length x) l) !! i
  = if decide (w <= i < w + length x)%nat then x !! (i - w)%nat else l !! i.
Proof.
  intros Hfit.
  destruct (decide (i < w)%nat) as [Hlt|Hge].
  - rewrite lookup_app_l by (rewrite length_take; lia).
    rewrite lookup_take_lt by lia.
    destruct (decide _) as [[]|]; [lia|done].
  - rewrite lookup_app_r by (rewrite length_take; lia).
    rewrite length_take, Nat.min_l by lia.
    destruct (decide (i - w < length x)%nat) as [Hin|Hout].
    + rewrite lookup_app_l by lia.
      destruct (decide _) as [|Hn]; [done|lia].
    + rewrite lookup_app_r by lia. rewrite lookup_drop.
      destruct (decide _) as [[]|]; [lia|]. f_equal. lia.
Qed.

(** A window that the copy does not meet is unchanged. *)
Lemma window_unchanged l x (w p m : nat) :
  (w + length x <= length l)%nat ->
  (p + m <= w \/ w + length x <= p)%nat ->
  take m (drop p (take w l ++ x ++ drop (w + length x) l))
  = take m (drop p l).
Proof.
  intros Hfit Hapart. apply list_eq. intros i.
  destruct (decide (i < m)%nat) as [Hi|Hi].
  - rewrite !lookup_take_lt, !lookup_drop by lia.
    rewrite lookup_overwrite by lia.
    destruct (decide _) as [[]|]; [lia|done].
  - rewrite !lookup_take_ge by lia. done.
Qed.

(** The window that the copy fills. *)
Lemma window_written l x (w : nat) :
  (w + length x <= length l)%nat ->
  take (length x) (drop w (take w l ++ x ++ drop (w + length x) l)) = x.
Proof.
  intros Hfit. rewrite drop_app_length' by (rewrite length_take; lia).
  apply take_app_length.
Qed.
End windows.

Section slot_positions.
Variables s n : Z.
Hypothesis s_pos : 0 < s.
Hypothesis n_pos : 0 < n.

(** Slots that start at different positions do not meet. *)
Lemma slots_apart p q :
  p mod s = 0 -> q mod s = 0 -> p <> q -> p + s <= q \/ q + s <= p.
Proof using s_pos.
  intros Hp Hq Hne.
  apply Z_div_exact_full_2 in Hp, Hq; try lia.
  assert (p / s <> q / s) by congruence.
  nia.
Qed.

Lemma offset_slot_index p k :
  p mod s = 0 -> (p + k * s) mod (s * n) = s * ((p / s + k) mod n).
Proof using s_pos n_pos.
  intros Hp. apply Z_div_exact_full_2 in Hp; [|lia].
  rewrite <- Zmult_mod_distr_l. f_equal. rewrite Hp at 1. ring.
Qed.

(** Fewer than [n] slots on from a position is a different position. *)
Lemma offsets_distinct p j k :
  p mod s = 0 -> 0 <= j < k -> k < n ->
  (p + j * s) mod (s * n) <> (p + k * s) mod (s * n).
Proof using s_pos n_pos.
  intros Hp Hj Hk. rewrite !offset_slot_index by done. intros E.
  apply Z.mul_cancel_l in E; [|lia].
  assert ((p / s + k - (p / s + j)) mod n = 0) as E0.
  { rewrite Zminus_mod, E, Z.sub_diag. apply Z.mod_0_l. lia. }
  replace (p / s + k - (p / s + j)) with (k - j) in E0 by ring.
  rewrite Z.mod_small in E0 by lia. lia.
Qed.

(** The write position is [f] slots on from the read position. *)
Lemma write_pos_offset w r f :
  0 <= w < s * n ->
  (w - r) mod (s * n) = (f * s) mod (s * n) ->
  w = (r + f * s) mod (s * n).
Proof using s_pos n_pos.
  intros Hw E. apply (congr_shift _ _ r) in E.
  replace (w - r + r) with w in E by ring.
  rewrite Z.mod_small in E by lia. rewrite E. f_equal. ring.
Qed.
End slot_positions.


(** ** The queue under insert and read *)

Lemma queue_empty this : mFullSlots this = 0 -> queue this = [].
Proof. intros E. unfold queue. rewrite E. reflexivity. Qed.

Lemma length_queue this :
  0 <= mFullSlots this -> Z.of_nat (length (queue this)) = mFullSlots this.
Proof. intros H. unfold queue. rewrite length_fmap, length_seqZ. lia. Qed.

(** An insert that finds room appends its slot to the queue. *)
Lemma queue_inserted x this :
  wf this -> slot_of this x -> mFullSlots this < mNumSlots this ->
  queue (inserted x this) = queue this ++ [x].
Proof.
  intros Hwf Hx Hroom. destruct_wf Hwf. unfold slot_of in Hx.
  pose proof (pos_step_le _ _ Hs Hn _ Hw Hws) as Hstep.
  pose proof (write_pos_offset _ _ Hs Hn _ _ _ Hw Hc) as Hwpos.
  assert (length x = Z.to_nat (mSlotSize this)) as Hlenx
    by (unfold len in Hx; lia).
  assert (Z.to_nat (mWritePosition this + mSlotSize this)
          = (Z.to_nat (mWritePosition this) + length x)%nat) as Hend by lia.
  unfold queue, inserted; fields.
  rewrite seqZ_app, fmap_app by lia. f_equal.
  - apply list_fmap_ext. intros i k Hk.
    apply lookup_seqZ in Hk as [-> Hi].
    unfold slot_from; fields. rewrite HT, Hend, <- Hlenx.
    apply window_unchanged; [unfold len in Hring; lia|].
    assert ((mReadPosition this + (0 + Z.of_nat i) * mSlotSize this)
              mod (mSlotSize this * mNumSlots this) <> mWritePosition this)
      as Hne.
    { rewrite Hwpos. apply offsets_distinct; lia. }
    pose proof (advance_range _ _ Hs Hn (mReadPosition this)
                  ((0 + Z.of_nat i) * mSlotSize this)) as Hrange.
    pose proof (advance_slot _ _ Hs Hn (mReadPosition this)
                  (0 + Z.of_nat i) Hrs) as Hslot.
    destruct (slots_apart _ Hs _ _ Hslot Hws Hne); lia.
  - rewrite seqZ_cons, seqZ_nil by lia. cbn [fmap list_fmap].
    f_equal. unfold slot_from; fields. rewrite HT, Z.add_0_l, <- Hwpos.
    rewrite Hend, <- Hlenx. apply window_written.
    unfold len in Hring; lia.
Qed.

Lemma front_slot_from this : front this = slot_from this (mReadPosition this).
Proof. reflexivity. Qed.

(** A read that finds a slot takes the oldest one off the queue. *)
Lemma queue_consumed this :
  wf this -> 0 < mFullSlots this ->
  queue this = front this :: queue (consumed this).
Proof.
  intros Hwf Hsome. destruct_wf Hwf.
  unfold queue at 1. rewrite seqZ_cons by lia. cbn [fmap list_fmap].
  f_equal.
  - rewrite Z.mul_0_l, Z.add_0_r, HT, Z.mod_small by lia. reflexivity.
  - unfold queue, consumed; fields.
    rewrite <- (fmap_add_seqZ 1 0), <- list_fmap_compose.
    replace (Z.pred (mFullSlots this)) with (mFullSlots this - 1) by lia.
    apply list_fmap_ext. intros i k _. cbn [compose].
    unfold slot_from; fields. do 3 f_equal.
    rewrite HT, Zplus_mod_idemp_l. f_equal. ring.
Qed.


(** ** Calls on a well-formed object *)

Lemma eqb_false_lt a b : a < b -> (a =? b) = false.
Proof. intros H. apply Z.eqb_neq. lia. Qed.

Lemma eqb_false_gt a b : b < a -> (a =? b) = false.
Proof. intros H. apply Z.eqb_neq. lia. Qed.

Lemma insertSlotBlocking_room self x this :
  wf this -> slot_of this x -> mFullSlots this < mNumSlots this ->
  insertSlotBlocking self x this = Returns (inserted x this).
Proof.
  intros Hwf Hx Hroom. unfold insertSlotBlocking.
  rewrite eqb_false_lt by done. now apply insert_body_Returns.
Qed.

Lemma insertSlotNonBlocking_room x this :
  wf this -> slot_of this x -> mFullSlots this < mNumSlots this ->
  insertSlotNonBlocking x this = Returns (inserted x this).
Proof.
  intros Hwf Hx Hroom. unfold insertSlotNonBlocking.
  rewrite eqb_false_lt by done. now apply insert_body_Returns.
Qed.

Lemma insertSlotBlocking_full self x this :
  mFullSlots this = mNumSlots this ->
  insertSlotBlocking self x this
  = Waits (set_mBufferIsNotFull (wait (mBufferIsNotFull this) self) this).
Proof.
  intros Hfull. unfold insertSlotBlocking.
  now rewrite Hfull, Z.eqb_refl.
Qed.

Lemma insertSlotNonBlocking_full x this :
  mFullSlots this = mNumSlots this ->
  insertSlotNonBlocking x this = overflowReset this.
Proof.
  intros Hfull. unfold insertSlotNonBlocking.
  now rewrite Hfull, Z.eqb_refl.
Qed.

Lemma readSlotBlocking_some self out this :
  wf this -> slot_of this out -> 0 < mFullSlots this ->
  readSlotBlocking self out this = Returns (front this, consumed this).
Proof.
  intros Hwf Hx Hsome. unfold readSlotBlocking.
  rewrite eqb_false_gt by done. now apply read_body_Returns.
Qed.

Lemma readSlotNonBlocking_some out this :
  wf this -> slot_of this out -> 0 < mFullSlots this ->
  readSlotNonBlocking out this = Returns (front this, consumed this).
Proof.
  intros Hwf Hx Hsome. unfold readSlotNonBlocking.
  rewrite eqb_false_gt by done. now apply read_body_Returns.
Qed.

Lemma readSlotBlocking_empty self out this :
  mFullSlots this = 0 ->
  readSlotBlocking self out this
  = Waits (set_mBufferIsNotEmpty (wait (mBufferIsNotEmpty this) self) this).
Proof.
  intros Hempty. unfold readSlotBlocking. now rewrite Hempty.
Qed.

Lemma readSlotNonBlocking_empty out this :
  wf this -> slot_of this out -> mFullSlots this = 0 ->
  readSlotNonBlocking out this
  = Returns (zeros (mSlotSize this), cleared this).
Proof.
  intros Hwf Hx Hempty. unfold readSlotNonBlocking. rewrite Hempty.
  now apply underrun_Returns.
Qed.

Lemma run_call_Insert_room self b x this :
  wf this -> slot_of this x -> mFullSlots this < mNumSlots this ->
  run_call self (Insert b x) this = Returns (x, inserted x this).
Proof.
  intros Hwf Hx Hroom. destruct b; cbn [run_call].
  - now rewrite insertSlotBlocking_room.
  - now rewrite insertSlotNonBlocking_room.
Qed.

Lemma run_call_Read_some self b out this :
  wf this -> slot_of this out -> 0 < mFullSlots this ->
  run_call self (Read b out) this = Returns (front this, consumed this).
Proof.
  intros Hwf Hx Hsome. destruct b; cbn [run_call].
  - now apply readSlotBlocking_some.
  - now apply readSlotNonBlocking_some.
Qed.

(** ** Straight-line callers *)

Lemma run_calls_app self cs1 cs2 this :
  run_calls self (cs1 ++ cs2) this
  = (r1 ← run_calls self cs1 this;
     r2 ← run_calls self cs2 r1.2;
     Returns (r1.1 ++ r2.1, r2.2)).
Proof.
  revert this. induction cs1 as [|c cs1 IH]; intros this.
  - cbn. destruct (run_calls self cs2 this) as [[]| | |]; reflexivity.
  - cbn [app run_calls].
    destruct (run_call self c this) as [[buf this1]| | |]; try reflexivity.
    run. cbn [fst snd]. rewrite IH.
    destruct (run_calls self cs1 this1) as [[o1 this2]| | |]; try reflexivity.
    run. cbn [fst snd].
    destruct (run_calls self cs2 this2) as [[o2 this3]| | |]; try reflexivity.
    run. cbn [fst snd]. destruct c; reflexivity.
Qed.

(** Inserts that find room, of either kind: the slots join the queue in
    the order of the calls. *)
Lemma run_inserts self bs xs this :
  wf this -> Forall (slot_of this) xs -> length bs = length xs ->
  mFullSlots this + Z.of_nat (length xs) <= mNumSlots this ->
  exists this',
    run_calls self (zip_with Insert bs xs) this = Returns ([], this')
    /\ wf this' /\ queue this' = queue this ++ xs
    /\ mFullSlots this' = mFullSlots this + Z.of_nat (length xs)
    /\ mSlotSize this' = mSlotSize this
    /\ mNumSlots this' = mNumSlots this.
Proof.
  revert bs this.
  induction xs as [|x xs IH]; intros bs this Hwf Hxs Hlen Hroom.
  - destruct bs; [|discriminate]. exists this. cbn.
    rewrite app_nil_r. split_and!; try done; lia.
  - destruct bs as [|b bs]; [discriminate|]. cbn [length] in *.
    apply Forall_cons in Hxs as [Hx Hxs].
    assert (wf (inserted x this)) as Hwf' by (apply wf_inserted; [done..|lia]).
    destruct (IH bs (inserted x this) Hwf') as (this' & Hrun & ? & Hq & Hf & ? & ?).
    { exact Hxs. } { lia. } { cbn [inserted mFullSlots mNumSlots]. lia. }
    exists this'. cbn [zip_with run_calls].
    rewrite run_call_Insert_room by (done || lia). run. cbn [snd].
    rewrite Hrun. run. cbn [fst snd].
    rewrite Hq, queue_inserted by (done || lia).
    rewrite <- app_assoc. cbn [inserted mFullSlots] in Hf.
    split_and!; try done; lia.
Qed.

(** Reads that find a slot, of either kind: they return the front of
    the queue in its order. *)
Lemma run_reads self bs outs this :
  wf this -> Forall (slot_of this) outs -> length bs = length outs ->
  Z.of_nat (length outs) <= mFullSlots this ->
  exists this',
    run_calls self (zip_with Read bs outs) this
    = Returns (take (length outs) (queue this), this')
    /\ wf this' /\ queue this' = drop (length outs) (queue this)
    /\ mFullSlots this' = mFullSlots this - Z.of_nat (length outs).
Proof.
  revert bs this.
  induction outs as [|x xs IH]; intros bs this Hwf Hxs Hlen Hroom.
  - destruct bs; [|discriminate]. exists this. cbn.
    split_and!; try done; lia.
  - destruct bs as [|b bs]; [discriminate|]. cbn [length] in *.
    apply Forall_cons in Hxs as [Hx Hxs].
    assert (wf (consumed this)) as Hwf' by (apply wf_consumed; [done|lia]).
    destruct (IH bs (consumed this) Hwf') as (this' & Hrun & ? & Hq & Hf).
    { exact Hxs. } { lia. } { cbn [consumed mFullSlots]. lia. }
    exists this'. cbn [zip_with run_calls].
    rewrite run_call_Read_some by (done || lia). run. cbn [fst snd].
    rewrite Hrun. run. cbn [fst snd].
    rewrite (queue_consumed this) by (done || lia). cbn [take drop].
    cbn [consumed mFullSlots] in Hf.
    split_and!; try done; lia.
Qed.


(** ** The overflow recovery *)

(** A ring of at most 2^30 bytes never overflows an [int]. *)
Lemma int_safe_small this :
  wf this -> mTotalSize this <= 1073741824 -> int_safe this.
Proof.
  intros Hwf Hsmall. destruct_wf Hwf. int_bounds. unfold int_safe.
  pose proof (half_mul_lt _ _ Hs Hn). lia.
Qed.

(** [overflowReset] returns exactly when the sum is an [int]. *)
Lemma overflowReset_outcome this :
  wf this ->
  (int_safe this /\ overflowReset this = Returns (overflowed this))
  \/ (~ int_safe this /\ overflowReset this = Undefined).
Proof.
  intros Hwf.
  destruct (decide (int_safe this)) as [Hsafe|Hunsafe].
  { left. split; [done|]. now apply overflowReset_Returns. }
  right. split; [done|]. unfold int_safe in Hunsafe.
  destruct_wf Hwf. int_bounds. unfold overflowReset. fields.
  pose proof (half_mul_lt _ _ Hs Hn) as Hh.
  rewrite !half_Some by lia. run.
  rewrite mul_Some by lia. run.
  unfold Int.add, Int.checked, Int.in_range.
  destruct (_ <=? Int.INT_MAX) eqn:E; [apply Z.leb_le in E; lia|].
  now rewrite andb_false_r.
Qed.

Lemma overflowed_one_slot this :
  wf this -> mNumSlots this = 1 -> overflowed this = this.
Proof.
  intros Hwf Hone. destruct_wf Hwf. unfold overflowed.
  destruct this as [s n T r w f ring last nf ne]. fields. subst n T.
  change (1 / 2) with 0.
  rewrite Z.mul_0_l, Z.add_0_r, Z.sub_0_r, Z.mod_small by lia.
  reflexivity.
Qed.


(** ** Construction *)

Lemma wf_constructed s n this :
  0 < s -> 0 < n -> MTRingBuffer s n = Returns this -> wf this.
Proof.
  intros Hs Hn Hrun.
  pose proof (MTRingBuffer_inv s n this Hs Hn Hrun) as Hmax.
  rewrite MTRingBuffer_Returns in Hrun by done. injection Hrun as <-.
  pose proof (half_mul_lt s n Hs Hn) as Hh.
  assert (0 <= n / 2 < n) as Hhalf.
  { split; [apply Z.div_pos; lia | apply Z.div_lt; lia]. }
  split; constructor; fields; try (apply len_zeros); try lia.
  - apply Z.mod_0_l. lia.
  - apply Z.mod_mul. lia.
  - now rewrite Z.sub_0_r.
Qed.

(** C1: for all positive [slot_size] and [num_slots], the constructor
    returns whenever the total size is an [int], and whatever it returns
    has both arrays zeroed (the ring of [total_size] bytes, the last-read
    slot of [slot_size] bytes), [full_slots = num_slots / 2],
    [write_pos = (num_slots / 2) * slot_size] and [read_pos = 0]. *)
Theorem constructed_half_full (s n : Z) :
  0 < s -> 0 < n ->
  (s * n <= Int.INT_MAX -> exists this, MTRingBuffer s n = Returns this)
  /\ (forall this, MTRingBuffer s n = Returns this ->
        mSlotSize this = s /\ mNumSlots this = n /\ mTotalSize this = s * n
        /\ mRingBuffer this = zeros (s * n)
        /\ len (mRingBuffer this) = s * n
        /\ mLastReadSlot this = zeros s
        /\ len (mLastReadSlot this) = s
        /\ mFullSlots this = n / 2
        /\ mWritePosition this = n / 2 * s
        /\ mReadPosition this = 0).
Proof.
  intros Hs Hn. split.
  - intros Hmax. eexists. now apply MTRingBuffer_Returns.
  - intros this Hrun.
    pose proof (MTRingBuffer_inv s n this Hs Hn Hrun) as Hmax.
    rewrite MTRingBuffer_Returns in Hrun by done. injection Hrun as <-.
    fields. split_and!; try reflexivity; apply len_zeros; nia.
Qed.

Lemma constructed_half_full_witness :
  0 < 4 /\ 0 < 4
  /\ (4 * 4 <= Int.INT_MAX -> exists this, MTRingBuffer 4 4 = Returns this)
  /\ (forall this, MTRingBuffer 4 4 = Returns this ->
        mSlotSize this = 4 /\ mNumSlots this = 4 /\ mTotalSize this = 4 * 4
        /\ mRingBuffer this = zeros (4 * 4)
        /\ len (mRingBuffer this) = 4 * 4
        /\ mLastReadSlot this = zeros 4
        /\ len (mLastReadSlot this) = 4
        /\ mFullSlots this = 4 / 2
        /\ mWritePosition this = 4 / 2 * 4
        /\ mReadPosition this = 0).
Proof.
  split; [lia|]. split; [lia|]. apply (constructed_half_full 4 4); lia.
Defined.


(** ** Every call on a well-formed object *)

Lemma run_call_outcome self c this :
  wf this -> slot_of this (array c) ->
  call_outcome self this c (run_call self c this).
Proof.
  intros Hwf Harr. pose proof Hwf as [_ [_ _ _ _ Hf _]].
  destruct c as [b x|b out]; cbn [array] in Harr.
  - destruct (decide (mFullSlots this = mNumSlots this)) as [Hfull|Hroom].
    + destruct b; cbn [run_call].
      * rewrite insertSlotBlocking_full by done. now constructor.
      * rewrite insertSlotNonBlocking_full by done.
        destruct (overflowReset_outcome this Hwf) as [[Hsafe ->]|[Hunsafe ->]];
          run; now constructor.
    + rewrite run_call_Insert_room by (done || lia). constructor. lia.
  - destruct (decide (mFullSlots this = 0)) as [Hempty|Hsome].
    + destruct b; cbn [run_call].
      * rewrite readSlotBlocking_empty by done. now constructor.
      * rewrite readSlotNonBlocking_empty by done. now constructor.
    + rewrite run_call_Read_some by (done || lia). constructor. lia.
Qed.


(** ** The state invariant *)

(** What does hold of the invariant: the constructor establishes it, and
    a call (blocking or non-blocking insert or read, the underrun
    recovery included) on an object that satisfies it leaves an object
    that satisfies it whenever it returns or parks its thread.  No call
    throws; the one call without a defined outcome is the non-blocking
    insert on a full buffer whose recovery forms a sum above [INT_MAX],
    and after it nothing is known of the object. *)
Lemma state_invariant_preserved :
  (forall s n this, 0 < s -> 0 < n -> MTRingBuffer s n = Returns this ->
     layout_ok this /\ state_invariant this)
  /\ (forall self c this,
        layout_ok this -> state_invariant this -> slot_of this (array c) ->
        match run_call self c this with
        | Returns r => layout_ok r.2 /\ state_invariant r.2
        | Waits this' => layout_ok this' /\ state_invariant this'
        | Throws _ => False
        | Undefined =>
            exists x, c = Insert false x
              /\ mFullSlots this = mNumSlots this /\ ~ int_safe this
        end).
Proof.
  split.
  - intros s n this Hs Hn Hrun. exact (wf_constructed s n this Hs Hn Hrun).
  - intros self c this HL HI Harr.
    assert (wf this) as Hwf by (split; assumption).
    destruct (run_call_outcome self c this Hwf Harr); cbn [fst snd].
    + apply wf_inserted; [done| |done]. exact Harr.
    + now apply wf_set_mBufferIsNotFull.
    + now apply wf_overflowed.
    + eauto.
    + now apply wf_consumed.
    + now apply wf_set_mBufferIsNotEmpty.
    + now apply wf_cleared.
Qed.

Lemma wf_full_4x4 : wf full_4x4.
Proof. wf_concrete. Defined.

Lemma wf_empty_1x2 : wf empty_1x2.
Proof. wf_concrete. Defined.

Lemma wf_full_1x1 : wf full_1x1.
Proof. wf_concrete. Defined.

Lemma state_invariant_preserved_witness :
  (layout_ok full_4x4 /\ state_invariant full_4x4
   /\ slot_of full_4x4 (array (Insert false (zeros 4))))
  /\ match run_call 0%nat (Insert false (zeros 4)) full_4x4 with
     | Returns r => layout_ok r.2 /\ state_invariant r.2
     | Waits this' => layout_ok this' /\ state_invariant this'
     | Throws _ => False
     | Undefined =>
         exists x, Insert false (zeros 4) = Insert false x
           /\ mFullSlots full_4x4 = mNumSlots full_4x4 /\ ~ int_safe full_4x4
     end.
Proof.
  pose proof wf_full_4x4 as [HL HI].
  assert (slot_of full_4x4 (array (Insert false (zeros 4)))) as Harr
    by reflexivity.
  split; [split_and!; assumption|].
  exact (proj2 state_invariant_preserved 0%nat _ full_4x4 HL HI Harr).
Defined.


(** ** Non-blocking insert on a full buffer *)

(** Where the sum the recovery forms is an [int]: on a full buffer
    ([full_slots = num_slots]) a non-blocking insert returns and leaves
    the ring as it was (the caller's slot is not written, the write
    position stays), with [full_slots = num_slots - num_slots / 2] and
    the read position advanced by [(num_slots / 2) * slot_size] modulo
    the total size. *)
Lemma overflow_drops_oldest_half (x : list byte) (this : MTRingBuffer_t) :
  wf this -> mFullSlots this = mNumSlots this -> int_safe this ->
  exists this',
    insertSlotNonBlocking x this = Returns this'
    /\ mRingBuffer this' = mRingBuffer this
    /\ mWritePosition this' = mWritePosition this
    /\ mFullSlots this' = mNumSlots this - mNumSlots this / 2
    /\ mReadPosition this'
       = (mReadPosition this + mNumSlots this / 2 * mSlotSize this)
         mod mTotalSize this.
Proof.
  intros Hwf Hfull Hsafe. exists (overflowed this).
  rewrite insertSlotNonBlocking_full by done.
  rewrite overflowReset_Returns by done.
  unfold overflowed; fields. rewrite Hfull. split_and!; reflexivity.
Qed.

Lemma int_safe_full_4x4 : int_safe full_4x4.
Proof. vm_compute. intros; discriminate. Defined.

Lemma overflow_drops_oldest_half_witness :
  (wf full_4x4 /\ mFullSlots full_4x4 = mNumSlots full_4x4
   /\ int_safe full_4x4)
  /\ exists this',
       insertSlotNonBlocking [x01; x02; x03; x04] full_4x4 = Returns this'
       /\ mRingBuffer this' = mRingBuffer full_4x4
       /\ mWritePosition this' = mWritePosition full_4x4
       /\ mFullSlots this' = mNumSlots full_4x4 - mNumSlots full_4x4 / 2
       /\ mReadPosition this'
          = (mReadPosition full_4x4
             + mNumSlots full_4x4 / 2 * mSlotSize full_4x4)
            mod mTotalSize full_4x4.
Proof.
  split.
  - split_and!; [exact wf_full_4x4 | reflexivity | exact int_safe_full_4x4].
  - exact (overflow_drops_oldest_half [x01; x02; x03; x04] full_4x4
             wf_full_4x4 eq_refl int_safe_full_4x4).
Defined.

(** The scenario of the specification: the read position goes to 8 and
    two slots stay. *)
Example overflow_4x4 :
  exists this',
    insertSlotNonBlocking [x01; x02; x03; x04] full_4x4 = Returns this'
    /\ mReadPosition this' = 8 /\ mFullSlots this' = 2.
Proof. eexists. split; [reflexivity|]. split; reflexivity. Qed.

(** The same from the constructor on: [full_slots] is 2 and the write
    position 8, two non-blocking inserts fill the buffer, and the third
    moves the read position to 8 and leaves two slots. *)
Example scenario_4x4 :
  exists this0 this2 this3,
    MTRingBuffer 4 4 = Returns this0
    /\ mFullSlots this0 = 2 /\ mWritePosition this0 = 8
    /\ mReadPosition this0 = 0
    /\ run_calls 0%nat
         [Insert false [x01; x02; x03; x04];
          Insert false [x05; x06; x07; x08]] this0
       = Returns ([], this2)
    /\ mFullSlots this2 = 4
    /\ insertSlotNonBlocking [x09; x0a; x0b; x0c] this2 = Returns this3
    /\ mReadPosition this3 = 8 /\ mFullSlots this3 = 2
    /\ mRingBuffer this3 = mRingBuffer this2.
Proof.
  do 3 eexists. split; [vm_compute; reflexivity|].
  do 3 (split; [reflexivity|]).
  split; [vm_compute; reflexivity|]. split; [reflexivity|].
  split; [vm_compute; reflexivity|]. split_and!; reflexivity.
Qed.

(** ** The overflow recovery on a large ring *)

Lemma run_inserts_positions self bs xs this :
  wf this -> Forall (slot_of this) xs -> length bs = length xs ->
  mFullSlots this + Z.of_nat (length xs) <= mNumSlots this ->
  exists this',
    run_calls self (zip_with Insert bs xs) this = Returns ([], this')
    /\ wf this'
    /\ mSlotSize this' = mSlotSize this
    /\ mNumSlots this' = mNumSlots this
    /\ mTotalSize this' = mTotalSize this
    /\ mFullSlots this' = mFullSlots this + Z.of_nat (length xs)
    /\ mReadPosition this' = mReadPosition this
    /\ mWritePosition this'
       = (mWritePosition this + Z.of_nat (length xs) * mSlotSize this)
         mod mTotalSize this.
Proof.
  revert bs this.
  induction xs as [|x xs IH]; intros bs this Hwf Hxs Hlen Hroom.
  - destruct bs; [|discriminate]. exists this. cbn [zip_with run_calls length].
    split_and!; try done; [lia|].
    destruct Hwf as [_ [_ _ Hw _ _ _]].
    rewrite Z.mul_0_l, Z.add_0_r, Z.mod_small; done.
  - destruct bs as [|b bs]; [discriminate|]. cbn [length] in *.
    apply Forall_cons in Hxs as [Hx Hxs].
    assert (wf (inserted x this)) as Hwf' by (apply wf_inserted; [done..|lia]).
    destruct (IH bs (inserted x this) Hwf')
      as (this' & Hrun & ? & Hs' & Hn' & HT' & Hf' & Hr' & Hw').
    { exact Hxs. } { lia. } { cbn [inserted mFullSlots mNumSlots]. lia. }
    exists this'. cbn [zip_with run_calls].
    rewrite run_call_Insert_room by (done || lia). run. cbn [snd].
    rewrite Hrun. run. cbn [fst snd].
    cbn [inserted mSlotSize mNumSlots mTotalSize mFullSlots mReadPosition
         mWritePosition] in Hs', Hn', HT', Hf', Hr', Hw'.
    split_and!; try done; [lia|].
    rewrite Hw', Zplus_mod_idemp_l. f_equal. lia.
Qed.

Lemma run_reads_positions self bs outs this :
  wf this -> Forall (slot_of this) outs -> length bs = length outs ->
  Z.of_nat (length outs) <= mFullSlots this ->
  exists got this',
    run_calls self (zip_with Read bs outs) this = Returns (got, this')
    /\ wf this'
    /\ mSlotSize this' = mSlotSize this
    /\ mNumSlots this' = mNumSlots this
    /\ mTotalSize this' = mTotalSize this
    /\ mFullSlots this' = mFullSlots this - Z.of_nat (length outs)
    /\ mWritePosition this' = mWritePosition this
    /\ mReadPosition this'
       = (mReadPosition this + Z.of_nat (length outs) * mSlotSize this)
         mod mTotalSize this.
Proof.
  revert bs this.
  induction outs as [|x xs IH]; intros bs this Hwf Hxs Hlen Hroom.
  - destruct bs; [|discriminate]. exists [], this.
    cbn [zip_with run_calls length].
    split_and!; try done; [lia|].
    destruct Hwf as [_ [Hr _ _ _ _ _]].
    rewrite Z.mul_0_l, Z.add_0_r, Z.mod_small; done.
  - destruct bs as [|b bs]; [discriminate|]. cbn [length] in *.
    apply Forall_cons in Hxs as [Hx Hxs].
    assert (wf (consumed this)) as Hwf' by (apply wf_consumed; [done|lia]).
    destruct (IH bs (consumed this) Hwf')
      as (got & this' & Hrun & ? & Hs' & Hn' & HT' & Hf' & Hw' & Hr').
    { exact Hxs. } { lia. } { cbn [consumed mFullSlots]. lia. }
    exists (front this :: got), this'. cbn [zip_with run_calls].
    rewrite run_call_Read_some by (done || lia). run. cbn [fst snd].
    rewrite Hrun. run. cbn [fst snd].
    cbn [consumed mSlotSize mNumSlots mTotalSize mFullSlots mReadPosition
         mWritePosition] in Hs', Hn', HT', Hf', Hr', Hw'.
    split_and!; try done; [lia|].
    rewrite Hr', Zplus_mod_idemp_l. f_equal. lia.
Qed.

Lemma run_blocking_inserts self k this :
  wf this -> mFullSlots this + Z.of_nat k <= mNumSlots this ->
  exists this',
    run_calls self (blocking_inserts k (mSlotSize this)) this
    = Returns ([], this')
    /\ wf this'
    /\ mSlotSize this' = mSlotSize this
    /\ mNumSlots this' = mNumSlots this
    /\ mTotalSize this' = mTotalSize this
    /\ mFullSlots this' = mFullSlots this + Z.of_nat k
    /\ mReadPosition this' = mReadPosition this
    /\ mWritePosition this'
       = (mWritePosition this + Z.of_nat k * mSlotSize this)
         mod mTotalSize this.
Proof.
  intros Hwf Hroom.
  pose proof (run_inserts_positions self (replicate k true)
                (replicate k (zeros (mSlotSize this))) this Hwf) as H.
  rewrite !length_replicate in H. apply H; [|done..].
  apply Forall_replicate. unfold slot_of. apply len_zeros.
  destruct Hwf as [[Hs _ _ _ _ _] _]. lia.
Qed.

Lemma run_blocking_reads self k this :
  wf this -> Z.of_nat k <= mFullSlots this ->
  exists got this',
    run_calls self (blocking_reads k (mSlotSize this)) this
    = Returns (got, this')
    /\ wf this'
    /\ mSlotSize this' = mSlotSize this
    /\ mNumSlots this' = mNumSlots this
    /\ mTotalSize this' = mTotalSize this
    /\ mFullSlots this' = mFullSlots this - Z.of_nat k
    /\ mWritePosition this' = mWritePosition this
    /\ mReadPosition this'
       = (mReadPosition this + Z.of_nat k * mSlotSize this)
         mod mTotalSize this.
Proof.
  intros Hwf Hroom.
  pose proof (run_reads_positions self (replicate k true)
                (replicate k (zeros (mSlotSize this))) this Hwf) as H.
  rewrite !length_replicate in H. apply H; [|done..].
  apply Forall_replicate. unfold slot_of. apply len_zeros.
  destruct Hwf as [[Hs _ _ _ _ _] _]. lia.
Qed.

(** The calls of [fill_1500x1M] on the buffer the constructor returns
    for 1500 slots of 2^20 bytes: none waits, and they leave the buffer
    full, with the read position at slot 1299. *)
Lemma fill_1500x1M_full self this :
  wf this -> mSlotSize this = 1048576 -> mNumSlots this = 1500 ->
  mReadPosition this = 0 -> mWritePosition this = 786432000 ->
  mFullSlots this = 750 ->
  exists got this',
    run_calls self fill_1500x1M this = Returns (got, this')
    /\ wf this'
    /\ mSlotSize this' = 1048576 /\ mNumSlots this' = 1500
    /\ mFullSlots this' = 1500 /\ mReadPosition this' = 1362100224.
Proof.
  intros Hwf Hs Hn Hr Hw Hf.
  assert (mTotalSize this = 1572864000) as HT.
  { destruct Hwf as [[_ _ HT _ _ _] _]. rewrite HT, Hs, Hn. reflexivity. }
  unfold fill_1500x1M.
  (* 750 reads empty the buffer *)
  destruct (run_blocking_reads self 750 this Hwf)
    as (got1 & this1 & Hrun1 & Hwf1 & Hs1 & Hn1 & HT1 & Hf1 & Hw1 & Hr1).
  { rewrite Hf. reflexivity. }
  rewrite Hs in Hrun1, Hs1, Hr1. rewrite Hn in Hn1. rewrite HT in HT1, Hr1.
  rewrite Hf in Hf1. rewrite Hw in Hw1. rewrite Hr in Hr1.
  change (750 - Z.of_nat 750) with 0 in Hf1.
  change ((0 + Z.of_nat 750 * 1048576) mod 1572864000) with 786432000 in Hr1.
  (* 1500 inserts fill it *)
  destruct (run_blocking_inserts self 1500 this1 Hwf1)
    as (this2 & Hrun2 & Hwf2 & Hs2 & Hn2 & HT2 & Hf2 & Hr2 & Hw2).
  { rewrite Hf1, Hn1. reflexivity. }
  rewrite Hs1 in Hrun2, Hs2, Hw2. rewrite Hn1 in Hn2. rewrite HT1 in HT2, Hw2.
  rewrite Hf1 in Hf2. rewrite Hw1 in Hw2. rewrite Hr1 in Hr2.
  change (0 + Z.of_nat 1500) with 1500 in Hf2.
  change ((786432000 + Z.of_nat 1500 * 1048576) mod 1572864000)
    with 786432000 in Hw2.
  (* 549 reads move the read position to slot 1299 *)
  destruct (run_blocking_reads self 549 this2 Hwf2)
    as (got3 & this3 & Hrun3 & Hwf3 & Hs3 & Hn3 & HT3 & Hf3 & Hw3 & Hr3).
  { rewrite Hf2. discriminate. }
  rewrite Hs2 in Hrun3, Hs3, Hr3. rewrite Hn2 in Hn3. rewrite HT2 in HT3, Hr3.
  rewrite Hf2 in Hf3. rewrite Hw2 in Hw3. rewrite Hr2 in Hr3.
  change (1500 - Z.of_nat 549) with 951 in Hf3.
  change ((786432000 + Z.of_nat 549 * 1048576) mod 1572864000)
    with 1362100224 in Hr3.
  (* 549 inserts fill it again *)
  destruct (run_blocking_inserts self 549 this3 Hwf3)
    as (this4 & Hrun4 & Hwf4 & Hs4 & Hn4 & HT4 & Hf4 & Hr4 & Hw4).
  { rewrite Hf3, Hn3. reflexivity. }
  rewrite Hs3 in Hrun4, Hs4. rewrite Hn3 in Hn4.
  rewrite Hf3 in Hf4. rewrite Hr3 in Hr4.
  change (951 + Z.of_nat 549) with 1500 in Hf4.
  exists (got1 ++ [] ++ got3 ++ []), this4.
  split; [|done].
  rewrite run_calls_app, Hrun1. run. cbn [fst snd].
  rewrite run_calls_app, Hrun2. run. cbn [fst snd].
  rewrite run_calls_app, Hrun3. run. cbn [fst snd].
  rewrite Hrun4. run. reflexivity.
Qed.

(** The state is one the public interface leads to. *)
Lemma overflow_state_reachable :
  exists this0 got this,
    MTRingBuffer 1048576 1500 = Returns this0
    /\ run_calls 0%nat fill_1500x1M this0 = Returns (got, this)
    /\ wf this
    /\ mSlotSize this = 1048576 /\ mNumSlots this = 1500
    /\ mFullSlots this = 1500 /\ mReadPosition this = 1362100224.
Proof.
  assert (0 < 1048576) as Hs by reflexivity.
  assert (0 < 1500) as Hn by reflexivity.
  assert (1048576 * 1500 <= Int.INT_MAX) as Hmax by discriminate.
  pose proof (MTRingBuffer_Returns 1048576 1500 Hs Hn Hmax) as Hnew.
  pose proof (wf_constructed _ _ _ Hs Hn Hnew) as Hwf.
  destruct (fill_1500x1M_full 0%nat _ Hwf) as (got & this & Hrun & H);
    [reflexivity..|].
  eexists _, got, this. split; [exact Hnew|]. split; [exact Hrun|exact H].
Qed.

(** In that state the sum of line 169 is no [int]. *)
Lemma overflow_state_unsafe this :
  mSlotSize this = 1048576 -> mNumSlots this = 1500 ->
  mReadPosition this = 1362100224 ->
  mReadPosition this + mNumSlots this / 2 * mSlotSize this = 2148532224
  /\ ~ int_safe this.
Proof.
  intros Hs Hn Hr. unfold int_safe. rewrite Hs, Hn, Hr.
  split; [reflexivity|]. intros H. now apply H.
Qed.



(** There the recovery has no defined outcome, and nor has the insert
    that calls it. *)
Lemma overflow_state_undefined x this :
  wf this -> mSlotSize this = 1048576 -> mNumSlots this = 1500 ->
  mFullSlots this = 1500 -> mReadPosition this = 1362100224 ->
  Int.add (mReadPosition this) (mNumSlots this / 2 * mSlotSize this) = None
  /\ overflowReset this = Undefined
  /\ insertSlotNonBlocking x this = Undefined.
Proof.
  intros Hwf Hs Hn Hf Hr.
  destruct (overflow_state_unsafe this Hs Hn Hr) as [Hsum Hunsafe].
  assert (overflowReset this = Undefined) as Hreset.
  { destruct (overflowReset_outcome this Hwf) as [[Hsafe _]|[_ ->]];
      [now destruct Hunsafe|reflexivity]. }
  split; [unfold Int.add; rewrite Hsum; reflexivity|].
  split; [exact Hreset|].
  rewrite insertSlotNonBlocking_full by (now rewrite Hf, Hn). exact Hreset.
Qed.

(** C2: the state invariant is not kept by every operation.  The
    constructor returns for 1500 slots of 2^20 bytes; the blocking reads
    and inserts of [fill_1500x1M], none of which waits, leave the object
    full, with its layout and its state invariant intact; and the
    non-blocking insert of a slot-sized array made then has no defined
    outcome, so that no state with the read position in
    [[0, total_size)] follows it: the overflow recovery adds
    [(mNumSlots / 2) * mSlotSize] to the read position before it reduces
    the sum, and the sum is no [int]. *)
Theorem overflow_recovery_breaks_invariant :
  exists this0 got this,
    MTRingBuffer 1048576 1500 = Returns this0
    /\ run_calls 0%nat fill_1500x1M this0 = Returns (got, this)
    /\ layout_ok this /\ state_invariant this
    /\ slot_of this (zeros 1048576)
    /\ run_call 0%nat (Insert false (zeros 1048576)) this = Undefined
    /\ state_after (run_call 0%nat (Insert false (zeros 1048576)) this)
       = None.
Proof.
  destruct overflow_state_reachable
    as (this0 & got & this & Hnew & Hrun & Hwf & Hs & Hn & Hf & Hr).
  exists this0, got, this.
  split; [exact Hnew|]. split; [exact Hrun|]. clear Hnew Hrun.
  destruct (overflow_state_undefined (zeros 1048576) this Hwf Hs Hn Hf Hr)
    as (_ & _ & Hcall).
  split; [exact (proj1 Hwf)|]. split; [exact (proj2 Hwf)|].
  split.
  { unfold slot_of. rewrite Hs. apply len_zeros. discriminate. }
  cbn [run_call]. rewrite Hcall. split; reflexivity.
Qed.

(** C3: a non-blocking insert on a full buffer does not always drop the
    oldest half.  On the full buffer that the constructor and the calls
    of [fill_1500x1M] lead to (1500 slots of 2^20 bytes, the read
    position at slot 1299), the sum
    [mReadPosition + (mNumSlots / 2) * mSlotSize] that [overflowReset]
    forms is 2148532224, above [INT_MAX]: the addition overflows, and
    neither [overflowReset] nor the insert has a defined outcome. *)
Theorem overflow_recovery_sum_overflows :
  exists this0 got this,
    MTRingBuffer 1048576 1500 = Returns this0
    /\ run_calls 0%nat fill_1500x1M this0 = Returns (got, this)
    /\ mFullSlots this = mNumSlots this
    /\ mReadPosition this + mNumSlots this / 2 * mSlotSize this = 2148532224
    /\ Int.INT_MAX < 2148532224
    /\ Int.add (mReadPosition this) (mNumSlots this / 2 * mSlotSize this)
       = None
    /\ overflowReset this = Undefined
    /\ insertSlotNonBlocking (zeros 1048576) this = Undefined.
Proof.
  destruct overflow_state_reachable
    as (this0 & got & this & Hnew & Hrun & Hwf & Hs & Hn & Hf & Hr).
  exists this0, got, this.
  split; [exact Hnew|]. split; [exact Hrun|]. clear Hnew Hrun.
  split; [now rewrite Hf, Hn|].
  split; [exact (proj1 (overflow_state_unsafe this Hs Hn Hr))|].
  split; [reflexivity|].
  exact (overflow_state_undefined (zeros 1048576) this Hwf Hs Hn Hf Hr).
Qed.


(** ** Non-blocking read on an empty buffer *)

(** C4: on an empty buffer ([full_slots = 0]) a non-blocking read returns
    with the caller's array filled with [slot_size] zero bytes and the
    whole ring zeroed, and consumes nothing: [full_slots] stays 0. *)
Theorem underrun_zeroes (out : list byte) (this : MTRingBuffer_t) :
  wf this -> slot_of this out -> mFullSlots this = 0 ->
  exists out' this',
    readSlotNonBlocking out this = Returns (out', this')
    /\ out' = zeros (mSlotSize this) /\ len out' = mSlotSize this
    /\ mRingBuffer this' = zeros (mTotalSize this)
    /\ len (mRingBuffer this') = mTotalSize this
    /\ mFullSlots this' = 0.
Proof.
  intros Hwf Hout Hempty.
  exists (zeros (mSlotSize this)), (cleared this).
  rewrite readSlotNonBlocking_empty by done.
  unfold cleared; fields.
  split_and!; try reflexivity; try done;
    apply len_zeros; destruct_wf Hwf; lia.
Qed.

Lemma underrun_zeroes_witness :
  (wf empty_1x2 /\ slot_of empty_1x2 [xff] /\ mFullSlots empty_1x2 = 0)
  /\ exists out' this',
       readSlotNonBlocking [xff] empty_1x2 = Returns (out', this')
       /\ out' = zeros (mSlotSize empty_1x2)
       /\ len out' = mSlotSize empty_1x2
       /\ mRingBuffer this' = zeros (mTotalSize empty_1x2)
       /\ len (mRingBuffer this') = mTotalSize empty_1x2
       /\ mFullSlots this' = 0.
Proof.
  split.
  - split_and!; [exact wf_empty_1x2 | reflexivity | reflexivity].
  - exact (underrun_zeroes [xff] empty_1x2 wf_empty_1x2 eq_refl eq_refl).
Defined.

(** C9: a non-blocking read on an empty buffer changes nothing but the
    ring and the caller's array, which it zeroes: the read and write
    positions, the count of full slots and the last-read slot (and the
    configuration and the wait queues) are as before.  So the positions
    may be non-zero while the whole ring is zero: such a state is reached
    from the constructor by one read and one underrun. *)
Theorem underrun_frame :
  (forall out this,
     wf this -> slot_of this out -> mFullSlots this = 0 ->
     exists out' this',
       readSlotNonBlocking out this = Returns (out', this')
       /\ mReadPosition this' = mReadPosition this
       /\ mWritePosition this' = mWritePosition this
       /\ mFullSlots this' = mFullSlots this
       /\ mLastReadSlot this' = mLastReadSlot this
       /\ this' = set_mRingBuffer (zeros (mTotalSize this)) this
       /\ out' = zeros (mSlotSize this))
  /\ (exists this0 out1 this1 out2 this2,
        MTRingBuffer 1 2 = Returns this0
        /\ readSlotNonBlocking [xff] this0 = Returns (out1, this1)
        /\ mFullSlots this1 = 0
        /\ readSlotNonBlocking [xff] this1 = Returns (out2, this2)
        /\ mReadPosition this2 <> 0 /\ mWritePosition this2 <> 0
        /\ mRingBuffer this2 = zeros (mTotalSize this2)).
Proof.
  split.
  - intros out this Hwf Hout Hempty.
    exists (zeros (mSlotSize this)), (cleared this).
    rewrite readSlotNonBlocking_empty by done.
    split_and!; reflexivity.
  - do 5 eexists. split; [reflexivity|]. split; [reflexivity|].
    split; [reflexivity|]. split; [reflexivity|].
    split_and!; [discriminate | discriminate | reflexivity].
Qed.

Lemma underrun_frame_witness :
  (wf empty_1x2 /\ slot_of empty_1x2 [xff] /\ mFullSlots empty_1x2 = 0)
  /\ exists out' this',
       readSlotNonBlocking [xff] empty_1x2 = Returns (out', this')
       /\ mReadPosition this' = mReadPosition empty_1x2
       /\ mWritePosition this' = mWritePosition empty_1x2
       /\ mFullSlots this' = mFullSlots empty_1x2
       /\ mLastReadSlot this' = mLastReadSlot empty_1x2
       /\ this' = set_mRingBuffer (zeros (mTotalSize empty_1x2)) empty_1x2
       /\ out' = zeros (mSlotSize empty_1x2).
Proof.
  split.
  - split_and!; [exact wf_empty_1x2 | reflexivity | reflexivity].
  - exact (proj1 underrun_frame [xff] empty_1x2 wf_empty_1x2 eq_refl eq_refl).
Defined.


(** ** A buffer of one slot *)

Lemma int_safe_one_slot this :
  wf this -> mNumSlots this = 1 -> int_safe this.
Proof.
  intros Hwf Hone. destruct_wf Hwf. unfold int_safe.
  rewrite Hone. change (1 / 2) with 0. lia.
Qed.

Lemma one_slot_insert_dropped x this :
  wf this -> mNumSlots this = 1 -> mFullSlots this = 1 ->
  insertSlotNonBlocking x this = Returns this.
Proof.
  intros Hwf Hone Hfull.
  rewrite insertSlotNonBlocking_full by congruence.
  rewrite overflowReset_Returns by (done || now apply int_safe_one_slot).
  now rewrite overflowed_one_slot.
Qed.

(** C10: with [num_slots = 1] the overflow recovery advances the read
    position by [(1 / 2) * slot_size = 0] and takes 0 off [full_slots]:
    a non-blocking insert on the full one-slot buffer returns with the
    whole object unchanged, so the buffer stays full and every
    non-blocking insert after it is dropped as well. *)
Theorem one_slot_overflow_is_noop (this : MTRingBuffer_t) :
  wf this -> mNumSlots this = 1 -> mFullSlots this = 1 ->
  mNumSlots this / 2 * mSlotSize this = 0
  /\ overflowReset this = Returns this
  /\ (forall x, insertSlotNonBlocking x this = Returns this)
  /\ (forall self xs,
        run_calls self (Insert false <$> xs) this = Returns ([], this)).
Proof.
  intros Hwf Hone Hfull. split_and!.
  - rewrite Hone. reflexivity.
  - rewrite overflowReset_Returns by (done || now apply int_safe_one_slot).
    now rewrite overflowed_one_slot.
  - intros x. now apply one_slot_insert_dropped.
  - intros self xs. induction xs as [|x xs IH]; [reflexivity|].
    cbn [fmap list_fmap run_calls run_call].
    rewrite one_slot_insert_dropped by done. run. cbn [snd].
    change (list_fmap _ _ (Insert false) xs) with (Insert false <$> xs).
    rewrite IH. reflexivity.
Qed.

Lemma one_slot_overflow_is_noop_witness :
  (wf full_1x1 /\ mNumSlots full_1x1 = 1 /\ mFullSlots full_1x1 = 1)
  /\ mNumSlots full_1x1 / 2 * mSlotSize full_1x1 = 0
  /\ overflowReset full_1x1 = Returns full_1x1
  /\ (forall x, insertSlotNonBlocking x full_1x1 = Returns full_1x1)
  /\ (forall self xs,
        run_calls self (Insert false <$> xs) full_1x1
        = Returns ([], full_1x1)).
Proof.
  split.
  - split_and!; [exact wf_full_1x1 | reflexivity | reflexivity].
  - exact (one_slot_overflow_is_noop full_1x1 wf_full_1x1 eq_refl eq_refl).
Defined.

(** ** The last-read slot *)

Lemma insert_body_last x this this' :
  insert_body x this = Returns this' ->
  mLastReadSlot this' = mLastReadSlot this.
Proof.
  unfold insert_body. repeat step_def; try discriminate.
  now intros [= <-].
Qed.

Lemma overflowReset_last this this' :
  overflowReset this = Returns this' ->
  mLastReadSlot this' = mLastReadSlot this.
Proof.
  unfold overflowReset. repeat step_def; try discriminate.
  now intros [= <-].
Qed.

Lemma underrun_last out this r :
  (out' ← setUnderrunReadSlot out this;
   this' ← underrunReset this;
   Returns (out', this')) = Returns r ->
  mLastReadSlot r.2 = mLastReadSlot this.
Proof.
  unfold setUnderrunReadSlot, underrunReset.
  repeat step_def; try discriminate. now intros [= <-].
Qed.

(** C7: a read that finds a slot (blocking or not) returns, and leaves in
    [mLastReadSlot] the very slot it has put in the caller's array; every
    other call leaves [mLastReadSlot] as it was: an insert of either kind
    (whether it writes, recovers from overflow or waits), a blocking read
    that waits, and the non-blocking read on an empty buffer, whose
    underrun recovery zeroes the ring. *)
Theorem last_read_slot_retained :
  (forall self b out this,
     wf this -> slot_of this out -> 0 < mFullSlots this ->
     exists out' this',
       run_call self (Read b out) this = Returns (out', this')
       /\ out' = front this
       /\ mLastReadSlot this' = out')
  /\ (forall self b x this this',
        state_after (run_call self (Insert b x) this) = Some this' ->
        mLastReadSlot this' = mLastReadSlot this)
  /\ (forall self b out this this',
        mFullSlots this = 0 ->
        state_after (run_call self (Read b out) this) = Some this' ->
        mLastReadSlot this' = mLastReadSlot this).
Proof.
  split_and!.
  - intros self b out this Hwf Hout Hsome.
    exists (front this), (consumed this).
    rewrite run_call_Read_some by done. split_and!; reflexivity.
  - intros self b x this this'.
    destruct b; cbn [run_call];
      unfold insertSlotBlocking, insertSlotNonBlocking;
      destruct (_ =? _).
    + cbn. now intros [= <-].
    + destruct (insert_body x this) as [t| | |] eqn:E; cbn; try discriminate.
      * intros [= <-]. now apply insert_body_last in E.
      * unfold insert_body in E.
        repeat (revert E; step_def; intros E); discriminate.
    + destruct (overflowReset this) as [t| | |] eqn:E; cbn; try discriminate.
      * intros [= <-]. now apply overflowReset_last in E.
      * unfold overflowReset in E.
        repeat (revert E; step_def; intros E); discriminate.
    + destruct (insert_body x this) as [t| | |] eqn:E; cbn; try discriminate.
      * intros [= <-]. now apply insert_body_last in E.
      * unfold insert_body in E.
        repeat (revert E; step_def; intros E); discriminate.
  - intros self b out this this' Hempty.
    destruct b; cbn [run_call];
      unfold readSlotBlocking, readSlotNonBlocking; rewrite Hempty;
      cbn [Z.eqb].
    + cbn. now intros [= <-].
    + destruct (_ ≫= _) as [r| | |] eqn:E; cbn; try discriminate.
      * intros [= <-]. now apply underrun_last in E.
      * unfold setUnderrunReadSlot, underrunReset in E.
        repeat (revert E; step_def; intros E); discriminate.
Qed.

Lemma last_read_slot_retained_witness :
  (wf full_4x4 /\ slot_of full_4x4 (zeros 4) /\ 0 < mFullSlots full_4x4)
  /\ exists out' this',
       run_call 0%nat (Read false (zeros 4)) full_4x4 = Returns (out', this')
       /\ out' = front full_4x4
       /\ mLastReadSlot this' = out'.
Proof.
  split.
  - split_and!; [exact wf_full_4x4 | reflexivity | reflexivity].
  - exact (proj1 last_read_slot_retained 0%nat false (zeros 4) full_4x4
             wf_full_4x4 eq_refl eq_refl).
Defined.


(** ** First in, first out *)

(** Inserts that find room and then as many reads as there are full
    slots: the reads return what was queued before, then the inserted
    slots, in the order of the inserts. *)
Lemma inserts_then_reads self bs bs' xs outs this :
  wf this -> Forall (slot_of this) xs -> Forall (slot_of this) outs ->
  length bs = length xs -> length bs' = length outs ->
  mFullSlots this + Z.of_nat (length xs) <= mNumSlots this ->
  Z.of_nat (length outs) = mFullSlots this + Z.of_nat (length xs) ->
  exists this',
    run_calls self (zip_with Insert bs xs ++ zip_with Read bs' outs) this
    = Returns (queue this ++ xs, this')
    /\ wf this' /\ mFullSlots this' = 0.
Proof.
  intros Hwf Hxs Houts Hbs Hbs' Hroom Hall.
  destruct (run_inserts self bs xs this Hwf Hxs Hbs Hroom)
    as (this1 & Hrun1 & Hwf1 & Hq1 & Hf1 & Hs1 & Hn1).
  assert (Forall (slot_of this1) outs) as Houts1.
  { unfold slot_of in *. now rewrite Hs1. }
  destruct (run_reads self bs' outs this1 Hwf1 Houts1 Hbs')
    as (this2 & Hrun2 & Hwf2 & Hq2 & Hf2); [lia|].
  exists this2. rewrite run_calls_app, Hrun1. run. cbn [fst snd].
  rewrite Hrun2. run. cbn [fst snd app].
  assert (length outs = length (queue this1)) as Hlen.
  { pose proof (length_queue this1). lia. }
  rewrite Hlen, firstn_all, Hq1. split_and!; [done..|lia].
Qed.

(** C5, amended: for every sequence of N slots with N <= capacity,
    inserting them into an empty buffer ([full_slots = 0]) and then
    performing N reads returns the slots in the order of their insertion;
    the calls may be blocking or not, in any mix. *)
Theorem fifo_from_empty self bs bs' xs outs this :
  wf this -> mFullSlots this = 0 ->
  Forall (slot_of this) xs -> Forall (slot_of this) outs ->
  length bs = length xs -> length bs' = length outs ->
  Z.of_nat (length xs) <= mNumSlots this ->
  length outs = length xs ->
  exists this',
    run_calls self (zip_with Insert bs xs ++ zip_with Read bs' outs) this
    = Returns (xs, this').
Proof.
  intros Hwf Hempty Hxs Houts Hbs Hbs' Hcap Hsame.
  destruct (inserts_then_reads self bs bs' xs outs this)
    as (this' & Hrun & _); try done; try lia.
  exists this'. now rewrite Hrun, queue_empty.
Qed.

Lemma fifo_from_empty_witness :
  (wf empty_1x2 /\ mFullSlots empty_1x2 = 0
   /\ Forall (slot_of empty_1x2) [[x01]; [x02]]
   /\ Forall (slot_of empty_1x2) [[x00]; [x00]])
  /\ exists this',
       run_calls 0%nat
         (zip_with Insert [true; false] [[x01]; [x02]]
          ++ zip_with Read [false; true] [[x00]; [x00]]) empty_1x2
       = Returns ([[x01]; [x02]], this').
Proof.
  assert (Forall (slot_of empty_1x2) [[x01]; [x02]]) as Hxs
    by (repeat constructor).
  assert (Forall (slot_of empty_1x2) [[x00]; [x00]]) as Houts
    by (repeat constructor).
  split.
  - split_and!; [exact wf_empty_1x2 | reflexivity | exact Hxs | exact Houts].
  - apply (fifo_from_empty 0%nat [true; false] [false; true]
             [[x01]; [x02]] [[x00]; [x00]] empty_1x2 wf_empty_1x2 eq_refl
             Hxs Houts eq_refl eq_refl); [vm_compute; discriminate | reflexivity].
Defined.

(** The claim as stated fails on the buffer the constructor returns: it
    holds two zero slots already, and the two reads return those. *)
Lemma fifo_counterexample :
  exists this outs this',
    MTRingBuffer 1 4 = Returns this
    /\ run_calls 0%nat
         (zip_with Insert [true; true] [[x01]; [x02]]
          ++ zip_with Read [true; true] [[xff]; [xff]]) this
       = Returns (outs, this')
    /\ outs = [[x00]; [x00]]
    /\ outs <> [[x01]; [x02]].
Proof.
  do 3 eexists. split; [vm_compute; reflexivity|].
  split; [vm_compute; reflexivity|].
  split; [reflexivity | discriminate].
Qed.

(** ** Round trip *)

(** C6, amended: for every slot S and every state with room
    ([full_slots < num_slots]), inserting S and then reading
    [full_slots + 1] times, with no write in between, returns first the
    slots queued before and then, at the last read, exactly S; on an
    empty buffer the first read returns S. *)
Theorem round_trip self b bs x outs this :
  wf this -> slot_of this x -> mFullSlots this < mNumSlots this ->
  Forall (slot_of this) outs -> length bs = length outs ->
  Z.of_nat (length outs) = mFullSlots this + 1 ->
  exists results this',
    run_calls self (Insert b x :: zip_with Read bs outs) this
    = Returns (results, this')
    /\ results = queue this ++ [x]
    /\ last results = Some x
    /\ (mFullSlots this = 0 -> results = [x]).
Proof.
  intros Hwf Hx Hroom Houts Hbs Hall.
  destruct (inserts_then_reads self [b] bs [x] outs this)
    as (this' & Hrun & _); try done; cbn [length]; try lia.
  { now constructor. }
  exists (queue this ++ [x]), this'. split_and!.
  - exact Hrun.
  - reflexivity.
  - apply last_snoc.
  - intros Hempty. now rewrite queue_empty.
Qed.

Lemma round_trip_witness :
  (wf empty_1x2 /\ slot_of empty_1x2 [x07]
   /\ mFullSlots empty_1x2 < mNumSlots empty_1x2
   /\ Forall (slot_of empty_1x2) [[xff]])
  /\ exists results this',
       run_calls 0%nat (Insert false [x07] :: zip_with Read [false] [[xff]])
         empty_1x2
       = Returns (results, this')
       /\ results = queue empty_1x2 ++ [[x07]]
       /\ last results = Some [x07]
       /\ (mFullSlots empty_1x2 = 0 -> results = [[x07]]).
Proof.
  assert (Forall (slot_of empty_1x2) [[xff]]) as Houts by (repeat constructor).
  split.
  - split_and!; [exact wf_empty_1x2 | reflexivity | reflexivity | exact Houts].
  - exact (round_trip 0%nat false [false] [x07] [[xff]] empty_1x2
             wf_empty_1x2 eq_refl eq_refl Houts eq_refl eq_refl).
Defined.

(** The claim as stated fails on the buffer the constructor returns:
    there is room, and the read after the insert returns the zero slot
    that was queued first. *)
Lemma round_trip_counterexample :
  exists this this1 out this2,
    MTRingBuffer 1 2 = Returns this
    /\ mFullSlots this < mNumSlots this
    /\ insertSlotBlocking 0%nat [x07] this = Returns this1
    /\ readSlotBlocking 0%nat [xff] this1 = Returns (out, this2)
    /\ out = [x00]
    /\ out <> [x07].
Proof.
  do 4 eexists. split; [vm_compute; reflexivity|].
  split; [reflexivity|].
  split; [vm_compute; reflexivity|]. split; [vm_compute; reflexivity|].
  split; [reflexivity | discriminate].
Qed.


(** ** What a call does to the count and to the wait queues *)

Lemma add_inv a b r : Int.add a b = Some r -> r = a + b.
Proof. intros H. now apply checked_inv in H as [-> _]. Qed.

Lemma sub_inv a b r : Int.sub a b = Some r -> r = a - b.
Proof. intros H. now apply checked_inv in H as [-> _]. Qed.

Lemma insert_body_effect x this r :
  insert_body x this = r ->
  match r with
  | Returns this' =>
      mFullSlots this' = mFullSlots this + 1
      /\ mBufferIsNotFull this' = mBufferIsNotFull this
      /\ mBufferIsNotEmpty this' = []
  | Waits _ | Throws _ => False
  | Undefined => True
  end.
Proof.
  intros <-. unfold insert_body.
  destruct (memcpy _ _ _ _ _); run; fields; [|done].
  destruct (Int.add (mWritePosition this) _); run; fields; [|done].
  destruct (Int.rem _ _); run; fields; [|done].
  destruct (Int.add (mFullSlots this) 1) eqn:E; run; fields; [|done].
  apply add_inv in E as ->. split_and!; reflexivity.
Qed.

Lemma read_body_effect out this r :
  read_body out this = r ->
  match r with
  | Returns (_, this') =>
      mFullSlots this' = mFullSlots this - 1
      /\ mBufferIsNotFull this' = []
      /\ mBufferIsNotEmpty this' = mBufferIsNotEmpty this
  | Waits _ | Throws _ => False
  | Undefined => True
  end.
Proof.
  intros <-. unfold read_body.
  destruct (memcpy out _ _ _ _); run; fields; [|done].
  destruct (memcpy (mLastReadSlot this) _ _ _ _); run; fields; [|done].
  destruct (Int.add _ _); run; fields; [|done].
  destruct (Int.rem _ _); run; fields; [|done].
  destruct (Int.sub (mFullSlots this) 1) eqn:E; run; fields; [|done].
  apply sub_inv in E as ->. split_and!; reflexivity.
Qed.

Lemma overflowReset_effect this r :
  overflowReset this = r ->
  match r with
  | Returns this' =>
      mBufferIsNotFull this' = mBufferIsNotFull this
      /\ mBufferIsNotEmpty this' = mBufferIsNotEmpty this
  | Waits _ | Throws _ => False
  | Undefined => True
  end.
Proof.
  intros <-. unfold overflowReset. repeat step_def; done.
Qed.

Lemma underrun_effect out this r :
  (out' ← setUnderrunReadSlot out this;
   this' ← underrunReset this;
   Returns (out', this')) = r ->
  match r with
  | Returns (_, this') =>
      mFullSlots this' = mFullSlots this
      /\ mBufferIsNotFull this' = mBufferIsNotFull this
      /\ mBufferIsNotEmpty this' = mBufferIsNotEmpty this
  | Waits _ | Throws _ => False
  | Undefined => True
  end.
Proof.
  intros <-. unfold setUnderrunReadSlot, underrunReset.
  repeat step_def; done.
Qed.

(** An insert that returns has either added a slot or recovered from an
    overflow; it never touches the queue of [mBufferIsNotFull]. *)
Lemma insert_returns self b x this buf this' :
  run_call self (Insert b x) this = Returns (buf, this') ->
  mBufferIsNotFull this' = mBufferIsNotFull this
  /\ ((mFullSlots this <> mNumSlots this
       /\ mFullSlots this' = mFullSlots this + 1
       /\ mBufferIsNotEmpty this' = [])
      \/ (b = false /\ mFullSlots this = mNumSlots this
          /\ mBufferIsNotEmpty this' = mBufferIsNotEmpty this)).
Proof.
  destruct b; cbn [run_call];
    unfold insertSlotBlocking, insertSlotNonBlocking;
    destruct (mFullSlots this =? mNumSlots this) eqn:Eg;
    (apply Z.eqb_eq in Eg || apply Z.eqb_neq in Eg).
  - discriminate.
  - pose proof (insert_body_effect x this _ eq_refl) as He.
    destruct (insert_body x this); cbn; try discriminate.
    intros [= <- <-]. destruct He as (? & ? & ?). auto.
  - pose proof (overflowReset_effect this _ eq_refl) as He.
    destruct (overflowReset this); cbn; try discriminate.
    intros [= <- <-]. destruct He as (? & ?). auto.
  - pose proof (insert_body_effect x this _ eq_refl) as He.
    destruct (insert_body x this); cbn; try discriminate.
    intros [= <- <-]. destruct He as (? & ? & ?). auto.
Qed.

(** A read that returns has either taken a slot or met an underrun; it
    never touches the queue of [mBufferIsNotEmpty]. *)
Lemma read_returns self b out this buf this' :
  run_call self (Read b out) this = Returns (buf, this') ->
  mBufferIsNotEmpty this' = mBufferIsNotEmpty this
  /\ ((mFullSlots this <> 0
       /\ mFullSlots this' = mFullSlots this - 1
       /\ mBufferIsNotFull this' = [])
      \/ (b = false /\ mFullSlots this = 0
          /\ mBufferIsNotFull this' = mBufferIsNotFull this)).
Proof.
  destruct b; cbn [run_call];
    unfold readSlotBlocking, readSlotNonBlocking;
    destruct (mFullSlots this =? 0) eqn:Eg;
    (apply Z.eqb_eq in Eg || apply Z.eqb_neq in Eg).
  - discriminate.
  - pose proof (read_body_effect out this _ eq_refl) as He.
    destruct (read_body out this) as [[]| | |]; try discriminate.
    intros [= <- <-]. destruct He as (? & ? & ?). auto.
  - pose proof (underrun_effect out this _ eq_refl) as He.
    destruct (_ ≫= _) as [[]| | |]; try discriminate.
    intros [= <- <-]. destruct He as (? & ? & ?). auto.
  - pose proof (read_body_effect out this _ eq_refl) as He.
    destruct (read_body out this) as [[]| | |]; try discriminate.
    intros [= <- <-]. destruct He as (? & ? & ?). auto.
Qed.

(** Only a blocking call whose guard is true waits, and it changes
    nothing but the queue it joins. *)
Lemma call_waits self c this this' :
  run_call self c this = Waits this' ->
  (exists x, c = Insert true x /\ mFullSlots this = mNumSlots this
     /\ this' = set_mBufferIsNotFull (mBufferIsNotFull this ++ [self]) this)
  \/ (exists out, c = Read true out /\ mFullSlots this = 0
        /\ this' = set_mBufferIsNotEmpty (mBufferIsNotEmpty this ++ [self]) this).
Proof.
  destruct c as [[] x|[] out]; cbn [run_call].
  - unfold insertSlotBlocking.
    destruct (mFullSlots this =? mNumSlots this) eqn:Eg.
    + apply Z.eqb_eq in Eg. cbn. intros [= <-]. left. eauto.
    + pose proof (insert_body_effect x this _ eq_refl) as He.
      destruct (insert_body x this); cbn; try discriminate. done.
  - unfold insertSlotNonBlocking.
    destruct (mFullSlots this =? mNumSlots this).
    + pose proof (overflowReset_effect this _ eq_refl) as He.
      destruct (overflowReset this); cbn; try discriminate. done.
    + pose proof (insert_body_effect x this _ eq_refl) as He.
      destruct (insert_body x this); cbn; try discriminate. done.
  - unfold readSlotBlocking.
    destruct (mFullSlots this =? 0) eqn:Eg.
    + apply Z.eqb_eq in Eg. intros [= <-]. right. eauto.
    + pose proof (read_body_effect out this _ eq_refl) as He.
      destruct (read_body out this) as [[]| | |]; try discriminate. done.
  - unfold readSlotNonBlocking.
    destruct (mFullSlots this =? 0).
    + pose proof (underrun_effect out this _ eq_refl) as He.
      destruct (_ ≫= _) as [[]| | |]; try discriminate. done.
    + pose proof (read_body_effect out this _ eq_refl) as He.
      destruct (read_body out this) as [[]| | |]; try discriminate. done.
Qed.


(** ** Blocking calls among other threads *)

(** A thread parked on [mBufferIsNotFull] takes no step, and stays
    parked through every step that is not a read taking a slot. *)
Lemma parked_not_full_step sys e sys' t :
  step sys e sys' -> t ∈ mBufferIsNotFull (object sys) ->
  (forall c, e <> Parks t c) /\ (forall c buf, e <> Completes t c buf)
  /\ (t ∈ mBufferIsNotFull (object sys') \/ frees_slot sys e sys').
Proof.
  intros Hstep Hin.
  destruct Hstep as [this calls t' c Hnone
                    |this calls t' c this' Hcall Hrun Hwaits
                    |this calls t' c buf this' Hcall Hrun Hret];
    cbn [object] in *.
  - split_and!; [discriminate | discriminate | now left].
  - split_and!.
    + intros c' [= -> ->]. apply Hrun. now left.
    + discriminate.
    + left. apply call_waits in Hwaits
        as [(x & -> & _ & ->)|(out & -> & _ & ->)]; fields.
      * apply elem_of_app. now left.
      * exact Hin.
  - split_and!.
    + discriminate.
    + intros c' buf' [= -> -> ->]. apply Hrun. now left.
    + destruct c as [b x|b out].
      * apply insert_returns in Hret as [-> _]. now left.
      * apply read_returns in Hret as [_ [(Hne & Hdec & _)|(_ & _ & ->)]].
        -- right. exists t', b, out, buf. now cbn [object].
        -- now left.
Qed.

(** A thread parked on [mBufferIsNotEmpty] takes no step, and stays
    parked through every step that is not an insert adding a slot. *)
Lemma parked_not_empty_step sys e sys' t :
  step sys e sys' -> t ∈ mBufferIsNotEmpty (object sys) ->
  (forall c, e <> Parks t c) /\ (forall c buf, e <> Completes t c buf)
  /\ (t ∈ mBufferIsNotEmpty (object sys') \/ supplies_slot sys e sys').
Proof.
  intros Hstep Hin.
  destruct Hstep as [this calls t' c Hnone
                    |this calls t' c this' Hcall Hrun Hwaits
                    |this calls t' c buf this' Hcall Hrun Hret];
    cbn [object] in *.
  - split_and!; [discriminate | discriminate | now left].
  - split_and!.
    + intros c' [= -> ->]. apply Hrun. now right.
    + discriminate.
    + left. apply call_waits in Hwaits
        as [(x & -> & _ & ->)|(out & -> & _ & ->)]; fields.
      * exact Hin.
      * apply elem_of_app. now left.
  - split_and!.
    + discriminate.
    + intros c' buf' [= -> -> ->]. apply Hrun. now right.
    + destruct c as [b x|b out].
      * apply insert_returns in Hret as [_ [(Hne & Hinc & _)|(_ & _ & ->)]].
        -- right. exists t', b, x, buf. now cbn [object].
        -- now left.
      * apply read_returns in Hret as [-> _]. now left.
Qed.

(** Until a step of the given kind, a parked thread completes nothing. *)
Lemma parked_until (woken : system -> event -> system -> Prop)
    (queue_of : MTRingBuffer_t -> list thread) sys tr sys' t c buf :
  (forall s e s', step s e s' -> t ∈ queue_of (object s) ->
     (forall c, e <> Parks t c) /\ (forall c buf, e <> Completes t c buf)
     /\ (t ∈ queue_of (object s') \/ woken s e s')) ->
  exec sys tr sys' -> t ∈ queue_of (object sys) ->
  Completes t c buf ∈ tr ->
  exists tr1 e tr2 sys1 sys2,
    tr = tr1 ++ e :: tr2 /\ exec sys tr1 sys1 /\ step sys1 e sys2
    /\ woken sys1 e sys2 /\ exec sys2 tr2 sys'
    /\ Completes t c buf ∈ tr2.
Proof.
  intros Hkeep Hexec. induction Hexec as [sys|sys e sys1 tr sys2 Hstep Hexec IH];
    intros Hin Hdone.
  - now apply elem_of_nil in Hdone.
  - destruct (Hkeep _ _ _ Hstep Hin) as (_ & Hnot & Hnext).
    apply elem_of_cons in Hdone as [Heq|Hdone].
    { symmetry in Heq. now apply Hnot in Heq. }
    destruct Hnext as [Hstill|Hwoken].
    + destruct (IH Hstill Hdone)
        as (tr1 & e' & tr2 & s1 & s2 & -> & Hex1 & Hst & Hw & Hex2 & Hin2).
      exists (e :: tr1), e', tr2, s1, s2. split_and!; try done.
      econstructor; eassumption.
    + exists [], e, tr, sys, sys1. split_and!; try done. constructor.
Qed.


Lemma data_set_mBufferIsNotFull q this :
  data (set_mBufferIsNotFull q this) = data this.
Proof. reflexivity. Qed.

Lemma data_set_mBufferIsNotEmpty q this :
  data (set_mBufferIsNotEmpty q this) = data this.
Proof. reflexivity. Qed.

(** C8: among any number of threads calling the methods of one object,
    - a blocking insert completes (copies its slot, moves the write
      position) only in a step that starts with [full_slots <> num_slots],
      and a blocking read completes only in a step that starts with
      [full_slots <> 0]; a blocking call whose guard is true parks its
      thread, changing no data member, and each time the thread is woken
      it runs the same test again, every step of a call being a run of
      the call from its loop test; a non-blocking call never parks;
    - once a blocking insert has found the buffer full and parked, it
      does not complete before a read has taken a slot off the queue;
    - once a blocking read has found the buffer empty and parked, it does
      not complete before an insert has added a slot to the queue. *)
Theorem blocking_calls_wait :
  (forall sys e sys', step sys e sys' ->
     match e with
     | Completes t (Insert true x) buf =>
         mFullSlots (object sys) <> mNumSlots (object sys)
     | Completes t (Read true out) buf =>
         mFullSlots (object sys) <> 0
     | Parks t (Insert true x) =>
         mFullSlots (object sys) = mNumSlots (object sys)
         /\ data (object sys') = data (object sys)
         /\ t ∈ mBufferIsNotFull (object sys')
     | Parks t (Read true out) =>
         mFullSlots (object sys) = 0
         /\ data (object sys') = data (object sys)
         /\ t ∈ mBufferIsNotEmpty (object sys')
     | Parks t (Insert false _) | Parks t (Read false _) => False
     | _ => True
     end)
  /\ (forall sys0 t x sys tr sys' buf,
        step sys0 (Parks t (Insert true x)) sys -> exec sys tr sys' ->
        Completes t (Insert true x) buf ∈ tr ->
        exists tr1 e tr2 sys1 sys2,
          tr = tr1 ++ e :: tr2 /\ exec sys tr1 sys1 /\ step sys1 e sys2
          /\ frees_slot sys1 e sys2 /\ exec sys2 tr2 sys'
          /\ Completes t (Insert true x) buf ∈ tr2)
  /\ (forall sys0 t out sys tr sys' buf,
        step sys0 (Parks t (Read true out)) sys -> exec sys tr sys' ->
        Completes t (Read true out) buf ∈ tr ->
        exists tr1 e tr2 sys1 sys2,
          tr = tr1 ++ e :: tr2 /\ exec sys tr1 sys1 /\ step sys1 e sys2
          /\ supplies_slot sys1 e sys2 /\ exec sys2 tr2 sys'
          /\ Completes t (Read true out) buf ∈ tr2).
Proof.
  assert (forall sys e sys', step sys e sys' ->
     match e with
     | Completes t (Insert true x) buf =>
         mFullSlots (object sys) <> mNumSlots (object sys)
     | Completes t (Read true out) buf =>
         mFullSlots (object sys) <> 0
     | Parks t (Insert true x) =>
         mFullSlots (object sys) = mNumSlots (object sys)
         /\ data (object sys') = data (object sys)
         /\ t ∈ mBufferIsNotFull (object sys')
     | Parks t (Read true out) =>
         mFullSlots (object sys) = 0
         /\ data (object sys') = data (object sys)
         /\ t ∈ mBufferIsNotEmpty (object sys')
     | Parks t (Insert false _) | Parks t (Read false _) => False
     | _ => True
     end) as Hguard.
  { intros sys e sys' Hstep.
    destruct Hstep as [this calls t c Hnone
                      |this calls t c this' Hcall Hrun Hwaits
                      |this calls t c buf this' Hcall Hrun Hret];
      cbn [object]; [done| |].
    - apply call_waits in Hwaits
        as [(x & -> & Hfull & ->)|(out & -> & Hempty & ->)].
      + split_and!; [done|reflexivity|]. fields.
        apply elem_of_app. right. now apply list_elem_of_singleton.
      + split_and!; [done|reflexivity|]. fields.
        apply elem_of_app. right. now apply list_elem_of_singleton.
    - destruct c as [[] x|[] out]; [| done | | done].
      + apply insert_returns in Hret as [_ [(Hne & _)|(Hb & _)]];
          [done|discriminate].
      + apply read_returns in Hret as [_ [(Hne & _)|(Hb & _)]];
          [done|discriminate]. }
  split_and!; [exact Hguard| |].
  - intros sys0 t x sys tr sys' buf Hpark Hexec Hdone.
    apply Hguard in Hpark as (_ & _ & Hin).
    exact (parked_until frees_slot mBufferIsNotFull sys tr sys' t _ buf
             (fun s e s' => parked_not_full_step s e s' t) Hexec Hin Hdone).
  - intros sys0 t out sys tr sys' buf Hpark Hexec Hdone.
    apply Hguard in Hpark as (_ & _ & Hin).
    exact (parked_until supplies_slot mBufferIsNotEmpty sys tr sys' t _ buf
             (fun s e s' => parked_not_empty_step s e s' t) Hexec Hin Hdone).
Qed.


Lemma sys_full_parks :
  step sys_full (Parks 1%nat (Insert true [x07])) sys_parked.
Proof.
  apply step_parks.
  - apply lookup_singleton_eq.
  - intros [H|H]; now apply elem_of_nil in H.
  - reflexivity.
Defined.

Lemma sys_parked_rendezvous :
  exists sys', exec sys_parked rendezvous sys'.
Proof.
  eexists. unfold rendezvous, sys_parked.
  eapply exec_cons.
  { apply step_begins. now apply lookup_singleton_ne. }
  eapply exec_cons.
  { apply (step_completes _ _ 2%nat (Read false [xff]) [x00]).
    - apply lookup_insert_eq.
    - intros [H|H]; cbn in H.
      + apply list_elem_of_singleton in H. discriminate.
      + now apply elem_of_nil in H.
    - vm_compute. reflexivity. }
  eapply exec_cons.
  { apply (step_completes _ _ 1%nat (Insert true [x07]) [x07]).
    - rewrite lookup_delete_ne by done. rewrite lookup_insert_ne by done.
      apply lookup_singleton_eq.
    - intros [H|H]; cbn in H; now apply elem_of_nil in H.
    - vm_compute. reflexivity. }
  apply exec_nil.
Defined.

Lemma blocking_calls_wait_witness :
  step sys_full (Parks 1%nat (Insert true [x07])) sys_parked
  /\ exists sys',
       exec sys_parked rendezvous sys'
       /\ Completes 1%nat (Insert true [x07]) [x07] ∈ rendezvous
       /\ exists tr1 e tr2 sys1 sys2,
            rendezvous = tr1 ++ e :: tr2 /\ exec sys_parked tr1 sys1
            /\ step sys1 e sys2 /\ frees_slot sys1 e sys2
            /\ exec sys2 tr2 sys'
            /\ Completes 1%nat (Insert true [x07]) [x07] ∈ tr2.
Proof.
  split; [exact sys_full_parks|].
  destruct sys_parked_rendezvous as [sys' Hexec]. exists sys'.
  assert (Completes 1%nat (Insert true [x07]) [x07] ∈ rendezvous) as Hdone.
  { unfold rendezvous. apply elem_of_cons. right.
    apply elem_of_cons. right. apply elem_of_cons. now left. }
  split; [exact Hexec|]. split; [exact Hdone|].
  exact (proj1 (proj2 blocking_calls_wait) sys_full 1%nat [x07] sys_parked
           rendezvous sys' [x07] sys_full_parks Hexec Hdone).
Defined.


(** * Further properties of the methods *)

(** ** The queue under the recoveries and under waiting *)

Lemma half_range n : 0 < n -> 0 <= n / 2 < n.
Proof. intros Hn. split; [apply Z.div_pos; lia | apply Z.div_lt; lia]. Qed.

(** The overflow recovery takes the oldest [mNumSlots / 2] slots off the
    queue and keeps the others in their order. *)
Lemma queue_overflowed this :
  wf this -> mFullSlots this = mNumSlots this ->
  queue (overflowed this) = drop (Z.to_nat (mNumSlots this / 2)) (queue this).
Proof.
  intros Hwf Hfull. destruct_wf Hwf.
  pose proof (half_range _ Hn) as Hhalf.
  assert (seqZ 0 (mNumSlots this)
          = seqZ 0 (mNumSlots this / 2)
            ++ seqZ (mNumSlots this / 2)
                 (mNumSlots this - mNumSlots this / 2)) as Hsplit.
  { rewrite <- (Z.add_0_l (mNumSlots this / 2)) at 2.
    rewrite <- seqZ_app by lia. f_equal. lia. }
  unfold queue, overflowed; fields. rewrite Hfull, Hsplit, fmap_app.
  rewrite drop_app_length' by (rewrite length_fmap, length_seqZ; lia).
  replace (seqZ (mNumSlots this / 2) (mNumSlots this - mNumSlots this / 2))
    with (Z.add (mNumSlots this / 2)
          <$> seqZ 0 (mNumSlots this - mNumSlots this / 2))
    by (rewrite fmap_add_seqZ; f_equal; lia).
  rewrite <- list_fmap_compose.
  apply list_fmap_ext. intros i k _. cbn [compose].
  unfold slot_from; fields. do 3 f_equal.
  rewrite HT, Zplus_mod_idemp_l. f_equal. ring.
Qed.

Lemma queue_cleared this :
  mFullSlots this = 0 -> queue (cleared this) = [].
Proof. intros Hempty. unfold queue, cleared; fields. now rewrite Hempty. Qed.

Lemma queue_set_mBufferIsNotFull q this :
  queue (set_mBufferIsNotFull q this) = queue this.
Proof. reflexivity. Qed.

Lemma queue_set_mBufferIsNotEmpty q this :
  queue (set_mBufferIsNotEmpty q this) = queue this.
Proof. reflexivity. Qed.


(** ** The ring as a bounded queue *)

(** One call on the ring is one call on its queue. *)
Lemma run_call_fifo self c this :
  wf this -> int_safe this -> slot_of this (array c) ->
  match fifo_call (mSlotSize this) (mNumSlots this) (queue this) c with
  | Some (buf, q) =>
      exists this',
        run_call self c this = Returns (buf, this')
        /\ queue this' = q /\ wf this'
        /\ mSlotSize this' = mSlotSize this
        /\ mNumSlots this' = mNumSlots this
        /\ mTotalSize this' = mTotalSize this
  | None =>
      exists this',
        run_call self c this = Waits this'
        /\ queue this' = queue this /\ wf this'
  end.
Proof.
  intros Hwf Hsafe Harr.
  pose proof (length_queue this) as Hlen.
  pose proof Hwf as [_ [_ _ _ _ Hf _]]. specialize (Hlen (proj1 Hf)).
  destruct (run_call_outcome self c this Hwf Harr)
    as [b x Hroom|x Hfull|x Hfull _|x Hfull Hunsafe
       |b out Hsome|out Hempty|out Hempty];
    cbn [fifo_call array] in *.
  - rewrite Hlen, eqb_false_lt by done.
    exists (inserted x this). split_and!; try reflexivity.
    + now apply queue_inserted.
    + now apply wf_inserted.
  - rewrite Hlen, Hfull, Z.eqb_refl. eexists. split_and!; try reflexivity.
    now apply wf_set_mBufferIsNotFull.
  - rewrite Hlen, Hfull, Z.eqb_refl.
    exists (overflowed this). split_and!; try reflexivity.
    + now apply queue_overflowed.
    + now apply wf_overflowed.
  - done.
  - rewrite (queue_consumed this) by done.
    exists (consumed this). split_and!; try reflexivity.
    now apply wf_consumed.
  - rewrite (queue_empty this) by done. eexists.
    split_and!; try reflexivity.
    + now rewrite queue_set_mBufferIsNotEmpty, queue_empty.
    + now apply wf_set_mBufferIsNotEmpty.
  - rewrite (queue_empty this) by done.
    exists (cleared this). split_and!; try reflexivity.
    + now apply queue_cleared.
    + now apply wf_cleared.
Qed.

Lemma int_safe_of_total this this' :
  wf this' -> mTotalSize this' = mTotalSize this ->
  mTotalSize this <= 1073741824 -> int_safe this'.
Proof. intros Hwf HT Hsmall. apply int_safe_small; [done|lia]. Qed.

(** X1: on a well-formed ring of at most 2^30 bytes, any straight-line
    sequence of calls with slot-sized arrays does to the ring what it
    does to a bounded queue of slots: an insert with room appends its
    slot, a non-blocking insert on the full queue drops the oldest
    [num_slots / 2] slots (and its own), a read takes the oldest slot, a
    non-blocking read on the empty queue returns zeroes, and a blocking
    call that cannot proceed waits.  The reads return the same slots,
    and the object stays well formed. *)
Theorem ring_refines_fifo self cs this :
  wf this -> mTotalSize this <= 1073741824 -> arrays_ok this cs ->
  match fifo_calls (mSlotSize this) (mNumSlots this) (queue this) cs with
  | Some (outs, q) =>
      exists this',
        run_calls self cs this = Returns (outs, this')
        /\ queue this' = q /\ wf this'
  | None => exists this', run_calls self cs this = Waits this' /\ wf this'
  end.
Proof.
  revert this. induction cs as [|c cs IH]; intros this Hwf Hsmall Hcs.
  - cbn. eauto.
  - apply Forall_cons in Hcs as [Hc Hcs].
    pose proof (run_call_fifo self c this Hwf
                  (int_safe_small this Hwf Hsmall) Hc) as Hstep.
    cbn [fifo_calls run_calls].
    destruct (fifo_call _ _ _ c) as [[buf q]|]; cbn [mbind option_bind].
    + destruct Hstep as (this1 & -> & <- & Hwf1 & Hs1 & Hn1 & HT1).
      run. cbn [fst snd].
      assert (arrays_ok this1 cs) as Hcs1.
      { unfold arrays_ok, slot_of in *. now rewrite Hs1. }
      specialize (IH this1 Hwf1 ltac:(lia) Hcs1).
      rewrite Hs1, Hn1 in IH.
      destruct (fifo_calls _ _ (queue this1) cs) as [[outs q']|];
        cbn [mbind option_bind].
      * destruct IH as (this2 & -> & <- & Hwf2). run. cbn [fst snd].
        exists this2. split_and!; done.
      * destruct IH as (this2 & -> & Hwf2). run. eauto.
    + destruct Hstep as (this1 & -> & _ & Hwf1). run. eauto.
Qed.

Lemma ring_refines_fifo_witness :
  (wf empty_1x2 /\ mTotalSize empty_1x2 <= 1073741824
   /\ arrays_ok empty_1x2
        [Insert false [x01]; Insert true [x02]; Insert false [x03];
         Read true [xff]; Read false [xff]])
  /\ match fifo_calls (mSlotSize empty_1x2) (mNumSlots empty_1x2)
            (queue empty_1x2)
            [Insert false [x01]; Insert true [x02]; Insert false [x03];
             Read true [xff]; Read false [xff]] with
     | Some (outs, q) =>
         exists this',
           run_calls 0%nat
             [Insert false [x01]; Insert true [x02]; Insert false [x03];
              Read true [xff]; Read false [xff]] empty_1x2
           = Returns (outs, this')
           /\ queue this' = q /\ wf this'
     | None =>
         exists this',
           run_calls 0%nat
             [Insert false [x01]; Insert true [x02]; Insert false [x03];
              Read true [xff]; Read false [xff]] empty_1x2
           = Waits this' /\ wf this'
     end.
Proof.
  assert (mTotalSize empty_1x2 <= 1073741824) as Hsmall
    by (vm_compute; discriminate).
  assert (arrays_ok empty_1x2
            [Insert false [x01]; Insert true [x02]; Insert false [x03];
             Read true [xff]; Read false [xff]]) as Hcs
    by (repeat constructor).
  split; [split_and!; [exact wf_empty_1x2 | exact Hsmall | exact Hcs]|].
  exact (ring_refines_fifo 0%nat _ empty_1x2 wf_empty_1x2 Hsmall Hcs).
Defined.

(** The run of the witness: the third insert finds the two-slot queue
    full and drops the oldest slot and itself, so the reads return the
    second slot and then zeroes. *)
Example fifo_calls_overflow_then_underrun :
  fifo_calls 1 2 []
    [Insert false [x01]; Insert true [x02]; Insert false [x03];
     Read true [xff]; Read false [xff]]
  = Some ([[x02]; [x00]], []).
Proof. reflexivity. Qed.


(** ** The slots the constructor leaves in the queue *)

Lemma slot_from_zeros this p :
  mRingBuffer this = zeros (mTotalSize this) ->
  0 <= mSlotSize this -> 0 <= p -> p + mSlotSize this <= mTotalSize this ->
  slot_from this p = zeros (mSlotSize this).
Proof.
  intros Hring Hs Hp Hfit. unfold slot_from, zeros in *. rewrite Hring.
  rewrite drop_replicate, take_replicate. f_equal. lia.
Qed.

(** X2: the buffer the constructor returns holds [num_slots / 2] slots,
    each of [slot_size] zero bytes: these are what the first reads
    return. *)
Theorem constructed_queue_is_zero_slots (s n : Z) (this : MTRingBuffer_t) :
  0 < s -> 0 < n -> MTRingBuffer s n = Returns this ->
  queue this = replicate (Z.to_nat (n / 2)) (zeros s).
Proof.
  intros Hspos Hnpos Hrun.
  pose proof (MTRingBuffer_inv s n this Hspos Hnpos Hrun) as Hmax.
  rewrite MTRingBuffer_Returns in Hrun by done. injection Hrun as <-.
  unfold queue; fields.
  rewrite <- (length_seqZ 0 (n / 2)). apply const_fmap. intros i k _.
  assert (0 < s * n) by nia.
  apply slot_from_zeros; fields; try lia; try reflexivity.
  - apply Z.mod_pos_bound. lia.
  - apply pos_step_le; try lia.
    + apply Z.mod_pos_bound. lia.
    + apply (advance_slot s n Hspos Hnpos 0 k).
      apply Z.mod_0_l. lia.
Qed.

Lemma constructed_queue_is_zero_slots_witness :
  (0 < 4 /\ 0 < 4
   /\ MTRingBuffer 4 4
      = Returns (mkMTRingBuffer 4 4 16 0 8 2 (zeros 16) (zeros 4) [] []))
  /\ queue (mkMTRingBuffer 4 4 16 0 8 2 (zeros 16) (zeros 4) [] [])
     = replicate (Z.to_nat (4 / 2)) (zeros 4).
Proof.
  assert (MTRingBuffer 4 4
          = Returns (mkMTRingBuffer 4 4 16 0 8 2 (zeros 16) (zeros 4) [] []))
    as Hrun by (vm_compute; reflexivity).
  split; [split_and!; [lia | lia | exact Hrun]|].
  apply (constructed_queue_is_zero_slots 4 4); [lia | lia | exact Hrun].
Defined.


(** ** Sizes the constructor does not accept *)

(** X3: with a size of zero (the other being a non-negative [int]) the
    total size is zero, and the constructor has no defined behaviour: it
    reduces the write position modulo zero. *)
Theorem constructor_zero_size_undefined (s n : Z) :
  0 <= s <= Int.INT_MAX -> 0 <= n <= Int.INT_MAX -> s = 0 \/ n = 0 ->
  MTRingBuffer s n = Undefined.
Proof.
  intros Hs Hn Hzero. int_bounds. unfold MTRingBuffer, MTRingBuffer_new.
  assert (s * n = 0) as Htotal by (destruct Hzero; subst; lia).
  assert (n / 2 * s = 0) as Hadv.
  { destruct Hzero; subst; [lia|]. reflexivity. }
  rewrite mul_Some by lia. run. rewrite Htotal.
  rewrite !new_bytes_Returns by lia. run.
  rewrite !memset0_all by (apply len_replicate; lia). run.
  rewrite half_Some by lia. run.
  rewrite mul_Some by lia. run. reflexivity.
Qed.

Lemma constructor_zero_size_undefined_witness :
  (0 <= 4 <= Int.INT_MAX /\ 0 <= 0 <= Int.INT_MAX /\ (4 = 0 \/ 0 = 0))
  /\ MTRingBuffer 4 0 = Undefined.
Proof.
  assert (0 <= 4 <= Int.INT_MAX) as H4 by (vm_compute; split; discriminate).
  assert (0 <= 0 <= Int.INT_MAX) as H0 by (vm_compute; split; discriminate).
  split; [exact (conj H4 (conj H0 (or_intror eq_refl)))|].
  exact (constructor_zero_size_undefined 4 0 H4 H0 (or_intror eq_refl)).
Defined.

(** X4: with a negative slot size, or a positive slot size and a negative
    number of slots (the product being an [int]), one of the two
    [new byte[...]] gets a negative length: whatever the allocator
    answers, the constructor throws [std::bad_alloc], and not the
    [std::length_error] of its own test, which it does not reach. *)
Theorem constructor_negative_size_throws (ring_granted last_granted : bool)
    (s n : Z) :
  Int.INT_MIN <= s * n <= Int.INT_MAX ->
  s < 0 \/ (0 < s /\ n < 0) ->
  MTRingBuffer_new ring_granted last_granted s n = Throws bad_alloc.
Proof.
  intros Hprod Hneg. unfold MTRingBuffer_new.
  rewrite mul_Some by done. run. unfold new_bytes.
  destruct (s * n <? 0) eqn:Et; run; [reflexivity|].
  apply Z.ltb_ge in Et.
  assert (s < 0) as Hs by (destruct Hneg as [|[? ?]]; [done|nia]).
  apply Z.ltb_lt in Hs. rewrite Hs.
  destruct ring_granted; reflexivity.
Qed.

Lemma constructor_negative_size_throws_witness :
  (Int.INT_MIN <= 4 * -1 <= Int.INT_MAX /\ (4 < 0 \/ (0 < 4 /\ -1 < 0)))
  /\ MTRingBuffer 4 (-1) = Throws bad_alloc.
Proof.
  assert (Int.INT_MIN <= 4 * -1 <= Int.INT_MAX) as Hprod
    by (vm_compute; split; discriminate).
  assert (4 < 0 \/ (0 < 4 /\ -1 < 0)) as Hneg by (right; split; reflexivity).
  split; [exact (conj Hprod Hneg)|].
  exact (constructor_negative_size_throws true true 4 (-1) Hprod Hneg).
Defined.

(** ** The overflow recovery on the queue *)

(** X5: on a full buffer a non-blocking insert takes the oldest
    [num_slots / 2] slots off the queue and keeps the newer
    [num_slots - num_slots / 2] in their order; the caller's slot does
    not join the queue. *)
Theorem overflow_keeps_newest (x : list byte) (this : MTRingBuffer_t) :
  wf this -> mFullSlots this = mNumSlots this -> int_safe this ->
  exists this',
    insertSlotNonBlocking x this = Returns this'
    /\ queue this' = drop (Z.to_nat (mNumSlots this / 2)) (queue this)
    /\ Z.of_nat (length (queue this'))
       = mNumSlots this - mNumSlots this / 2.
Proof.
  intros Hwf Hfull Hsafe. exists (overflowed this).
  rewrite insertSlotNonBlocking_full, overflowReset_Returns by done.
  split_and!; [reflexivity | now apply queue_overflowed |].
  pose proof Hwf as Hwf'. destruct_wf Hwf'.
  pose proof (half_range _ Hn).
  rewrite length_queue; unfold overflowed; fields; lia.
Qed.

Lemma overflow_keeps_newest_witness :
  (wf full_4x4 /\ mFullSlots full_4x4 = mNumSlots full_4x4
   /\ int_safe full_4x4)
  /\ exists this',
       insertSlotNonBlocking [x01; x02; x03; x04] full_4x4 = Returns this'
       /\ queue this'
          = drop (Z.to_nat (mNumSlots full_4x4 / 2)) (queue full_4x4)
       /\ Z.of_nat (length (queue this'))
          = mNumSlots full_4x4 - mNumSlots full_4x4 / 2.
Proof.
  split.
  - split_and!; [exact wf_full_4x4 | reflexivity | exact int_safe_full_4x4].
  - exact (overflow_keeps_newest [x01; x02; x03; x04] full_4x4
             wf_full_4x4 eq_refl int_safe_full_4x4).
Defined.

(** X6: with two slots or more, and with the sum
    [mReadPosition + (mNumSlots / 2) * mSlotSize] of the recovery an
    [int] ([int_safe]), the non-blocking insert that finds the buffer
    full is lost, and the one after it is stored: two such inserts leave
    the newer part of the old queue followed by the second slot. *)
Theorem insert_after_overflow_is_stored self x y this :
  wf this -> 2 <= mNumSlots this -> mFullSlots this = mNumSlots this ->
  int_safe this -> slot_of this y ->
  exists this',
    run_calls self [Insert false x; Insert false y] this
    = Returns ([], this')
    /\ queue this'
       = drop (Z.to_nat (mNumSlots this / 2)) (queue this) ++ [y].
Proof.
  intros Hwf Hn2 Hfull Hsafe Hy.
  assert (1 <= mNumSlots this / 2) as Hhalf.
  { apply Z.div_le_lower_bound; lia. }
  pose proof (wf_overflowed this Hwf Hfull) as Hwf1.
  exists (inserted y (overflowed this)).
  cbn [run_calls run_call].
  rewrite insertSlotNonBlocking_full, overflowReset_Returns by done.
  run. cbn [fst snd].
  rewrite insertSlotNonBlocking_room; try done.
  - run. cbn [fst snd]. split; [reflexivity|].
    rewrite queue_inserted, queue_overflowed; try done.
    unfold overflowed; fields. lia.
  - unfold overflowed; fields. lia.
Qed.

Lemma insert_after_overflow_is_stored_witness :
  (wf full_4x4 /\ 2 <= mNumSlots full_4x4
   /\ mFullSlots full_4x4 = mNumSlots full_4x4 /\ int_safe full_4x4
   /\ slot_of full_4x4 [x05; x06; x07; x08])
  /\ exists this',
       run_calls 0%nat
         [Insert false [x01; x02; x03; x04];
          Insert false [x05; x06; x07; x08]] full_4x4
       = Returns ([], this')
       /\ queue this'
          = drop (Z.to_nat (mNumSlots full_4x4 / 2)) (queue full_4x4)
            ++ [[x05; x06; x07; x08]].
Proof.
  assert (2 <= mNumSlots full_4x4) as Hn2 by (vm_compute; discriminate).
  split.
  - split_and!; [exact wf_full_4x4 | exact Hn2 | reflexivity
                | exact int_safe_full_4x4 | reflexivity].
  - exact (insert_after_overflow_is_stored 0%nat [x01; x02; x03; x04]
             [x05; x06; x07; x08] full_4x4 wf_full_4x4 Hn2 eq_refl
             int_safe_full_4x4 eq_refl).
Defined.


(** ** Caller arrays of the wrong size *)

Lemma memcpy_None_src dst doff src soff n :
  len src < soff + n -> memcpy dst doff src soff n = None.
Proof.
  intros Hshort. unfold memcpy.
  destruct (soff + n <=? len src) eqn:E; [apply Z.leb_le in E; lia|].
  now rewrite andb_false_r.
Qed.

Lemma memcpy_None_dst dst doff src soff n :
  len dst < doff + n -> memcpy dst doff src soff n = None.
Proof.
  intros Hshort. unfold memcpy.
  destruct (doff + n <=? len dst) eqn:E; [apply Z.leb_le in E; lia|].
  now rewrite andb_false_r, !andb_false_l.
Qed.

Lemma memset0_None dst n : len dst < n -> memset0 dst n = None.
Proof.
  intros Hshort. unfold memset0.
  destruct (n <=? len dst) eqn:E; [apply Z.leb_le in E; lia|].
  now rewrite andb_false_r.
Qed.

(** X7: a caller's array shorter than a slot makes every call that
    copies undefined, whatever the state of the object: an insert that
    finds room reads past the end of the array, a read that finds a slot
    and the non-blocking read on an empty buffer write past it.  The
    calls that do not copy (a blocking call that waits, the overflow
    recovery) do not look at the array. *)
Theorem short_array_undefined self b buf this :
  len buf < mSlotSize this ->
  (mFullSlots this <> mNumSlots this ->
   run_call self (Insert b buf) this = Undefined)
  /\ (mFullSlots this <> 0 ->
      run_call self (Read b buf) this = Undefined)
  /\ (mFullSlots this = 0 ->
      run_call self (Read false buf) this = Undefined).
Proof.
  intros Hshort. split_and!.
  - intros Hroom. apply Z.eqb_neq in Hroom.
    destruct b; cbn [run_call];
      unfold insertSlotBlocking, insertSlotNonBlocking, insert_body;
      rewrite Hroom, memcpy_None_src by lia; reflexivity.
  - intros Hsome. apply Z.eqb_neq in Hsome.
    destruct b; cbn [run_call];
      unfold readSlotBlocking, readSlotNonBlocking, read_body;
      rewrite Hsome, (memcpy_None_dst buf) by lia; reflexivity.
  - intros Hempty. cbn [run_call].
    unfold readSlotNonBlocking, setUnderrunReadSlot.
    rewrite Hempty, memset0_None by lia. reflexivity.
Qed.

Lemma short_array_undefined_witness :
  len [x01; x02] < mSlotSize full_4x4
  /\ (mFullSlots full_4x4 <> 0 ->
      run_call 0%nat (Read true [x01; x02]) full_4x4 = Undefined).
Proof.
  assert (len [x01; x02] < mSlotSize full_4x4) as Hshort by reflexivity.
  split; [exact Hshort|].
  exact (proj1 (proj2 (short_array_undefined 0%nat true [x01; x02]
                         full_4x4 Hshort))).
Defined.

(** A copy looks at the bytes it copies only. *)
Lemma memcpy_src_prefix dst doff src n :
  0 <= n <= len src ->
  memcpy dst doff src 0 n = memcpy dst doff (take (Z.to_nat n) src) 0 n.
Proof.
  intros Hn. unfold memcpy.
  assert (len (take (Z.to_nat n) src) = n) as Hlen.
  { unfold len in *. rewrite length_take. lia. }
  assert ((0 + n <=? len src) = true) as -> by (apply Z.leb_le; lia).
  assert ((0 + n <=? len (take (Z.to_nat n) src)) = true) as ->
    by (apply Z.leb_le; lia).
  change (Z.to_nat 0) with 0%nat.
  now rewrite !drop_0, take_take, Nat.min_id.
Qed.

Lemma insert_body_prefix x this :
  0 <= mSlotSize this <= len x ->
  insert_body x this
  = insert_body (take (Z.to_nat (mSlotSize this)) x) this.
Proof.
  intros Hx. unfold insert_body. now rewrite memcpy_src_prefix.
Qed.

(** X8: of a caller's array longer than a slot, a call uses the first
    [slot_size] bytes only: an insert that finds room appends those
    bytes to the queue, and a read that finds a slot overwrites those
    bytes with the oldest slot and leaves the rest of the array as it
    was. *)
Theorem long_array_prefix_only self b buf this :
  wf this -> mSlotSize this <= len buf ->
  (mFullSlots this < mNumSlots this ->
   exists this',
     run_call self (Insert b buf) this = Returns (buf, this')
     /\ queue this' = queue this ++ [take (Z.to_nat (mSlotSize this)) buf])
  /\ (0 < mFullSlots this ->
      exists this',
        run_call self (Read b buf) this
        = Returns (front this ++ drop (Z.to_nat (mSlotSize this)) buf, this')
        /\ queue this = front this :: queue this').
Proof.
  intros Hwf Hlong. split.
  - intros Hroom.
    assert (0 < mSlotSize this) as Hpos by (now destruct Hwf as [[] _]).
    assert (slot_of this (take (Z.to_nat (mSlotSize this)) buf)) as Hx.
    { unfold slot_of, len in *. rewrite length_take. lia. }
    exists (inserted (take (Z.to_nat (mSlotSize this)) buf) this).
    split; [|now apply queue_inserted].
    destruct b; cbn [run_call];
      unfold insertSlotBlocking, insertSlotNonBlocking;
      rewrite eqb_false_lt by done;
      rewrite insert_body_prefix by lia;
      rewrite insert_body_Returns by done; reflexivity.
  - intros Hsome.
    exists (consumed this). split; [|now apply queue_consumed].
    pose proof Hwf as Hwf'. destruct_wf Hwf'.
    pose proof (pos_step_le _ _ Hs Hn _ Hr Hrs) as Hstep.
    int_bounds.
    destruct b; cbn [run_call];
      unfold readSlotBlocking, readSlotNonBlocking, read_body;
      rewrite eqb_false_gt by done; fields;
      rewrite (memcpy_Some buf) by lia;
      rewrite memcpy_whole by lia; run;
      rewrite add_Some by lia; run;
      rewrite rem_Some by lia; run;
      rewrite sub_Some by lia; run;
      change (Z.to_nat 0) with 0%nat; rewrite take_0, Z.add_0_l;
      reflexivity.
Qed.

Lemma long_array_prefix_only_witness :
  (wf full_4x4 /\ mSlotSize full_4x4 <= len [x01; x02; x03; x04; x05; x06])
  /\ (0 < mFullSlots full_4x4 ->
      exists this',
        run_call 0%nat (Read false [x01; x02; x03; x04; x05; x06]) full_4x4
        = Returns (front full_4x4
                   ++ drop (Z.to_nat (mSlotSize full_4x4))
                        [x01; x02; x03; x04; x05; x06], this')
        /\ queue full_4x4 = front full_4x4 :: queue this').
Proof.
  assert (mSlotSize full_4x4 <= len [x01; x02; x03; x04; x05; x06])
    as Hlong by (vm_compute; discriminate).
  split; [exact (conj wf_full_4x4 Hlong)|].
  exact (proj2 (long_array_prefix_only 0%nat false
                  [x01; x02; x03; x04; x05; x06] full_4x4
                  wf_full_4x4 Hlong)).
Defined.

(** The witness by evaluation: the four bytes of the slot, then the two
    bytes the array had beyond them. *)
Example long_array_read_4x4 :
  exists this',
    readSlotNonBlocking [x01; x02; x03; x04; x05; x06] full_4x4
    = Returns ([x00; x00; x00; x00; x05; x06], this').
Proof. eexists. vm_compute. reflexivity. Qed.


(** ** What an insert writes *)

(** X9: an insert that finds room writes the [slot_size] bytes at the
    write position and no other byte of the ring: the ring keeps its
    length, the slot at the old write position is the caller's, and
    every byte outside it is as before. *)
Theorem insert_writes_one_slot self b x this :
  wf this -> slot_of this x -> mFullSlots this < mNumSlots this ->
  exists this',
    run_call self (Insert b x) this = Returns (x, this')
    /\ len (mRingBuffer this') = len (mRingBuffer this)
    /\ slot_from this' (mWritePosition this) = x
    /\ (forall i : nat,
          Z.of_nat i < mWritePosition this
          \/ mWritePosition this + mSlotSize this <= Z.of_nat i ->
          mRingBuffer this' !! i = mRingBuffer this !! i).
Proof.
  intros Hwf Hx Hroom. exists (inserted x this).
  rewrite run_call_Insert_room by done.
  pose proof (wf_inserted x this Hwf Hx Hroom) as [[_ _ _ _ Hring' _] _].
  destruct_wf Hwf. unfold slot_of in Hx.
  pose proof (pos_step_le _ _ Hs Hn _ Hw Hws) as Hstep.
  assert (length x = Z.to_nat (mSlotSize this)) as Hlenx
    by (unfold len in Hx; lia).
  assert (Z.to_nat (mWritePosition this + mSlotSize this)
          = (Z.to_nat (mWritePosition this) + length x)%nat) as Hend by lia.
  assert (Z.to_nat (mWritePosition this) + length x
          <= length (mRingBuffer this))%nat as Hfit
    by (unfold len in Hring; lia).
  split_and!.
  - reflexivity.
  - unfold inserted in Hring'; fields. unfold inserted; fields. lia.
  - unfold slot_from, inserted; fields. rewrite Hend, <- Hlenx.
    now apply window_written.
  - intros i Hout. unfold inserted; fields. rewrite Hend.
    rewrite lookup_overwrite by done.
    destruct (decide _) as [[]|]; [lia|done].
Qed.

Lemma insert_writes_one_slot_witness :
  (wf empty_1x2 /\ slot_of empty_1x2 [x07]
   /\ mFullSlots empty_1x2 < mNumSlots empty_1x2)
  /\ exists this',
       run_call 0%nat (Insert true [x07]) empty_1x2 = Returns ([x07], this')
       /\ len (mRingBuffer this') = len (mRingBuffer empty_1x2)
       /\ slot_from this' (mWritePosition empty_1x2) = [x07]
       /\ (forall i : nat,
             Z.of_nat i < mWritePosition empty_1x2
             \/ mWritePosition empty_1x2 + mSlotSize empty_1x2 <= Z.of_nat i ->
             mRingBuffer this' !! i = mRingBuffer empty_1x2 !! i).
Proof.
  split.
  - split_and!; [exact wf_empty_1x2 | reflexivity | reflexivity].
  - exact (insert_writes_one_slot 0%nat true [x07] empty_1x2
             wf_empty_1x2 eq_refl eq_refl).
Defined.

(** ** Sequences of calls *)

(** No call changes the configuration. *)
Lemma run_call_keeps_config self c this this' :
  state_after (run_call self c this) = Some this' ->
  mSlotSize this' = mSlotSize this /\ mNumSlots this' = mNumSlots this
  /\ mTotalSize this' = mTotalSize this.
Proof.
  destruct c as [[] x|[] out]; cbn [run_call];
    unfold insertSlotBlocking, insertSlotNonBlocking, readSlotBlocking,
      readSlotNonBlocking, insert_body, read_body, overflowReset,
      setUnderrunReadSlot, underrunReset;
    destruct (_ =? _); repeat step_def; cbn; try discriminate;
    intros [= <-]; split_and!; reflexivity.
Qed.

Lemma run_call_wf self c this this' :
  wf this -> slot_of this (array c) ->
  state_after (run_call self c this) = Some this' ->
  wf this' /\ mSlotSize this' = mSlotSize this.
Proof.
  intros Hwf Harr.
  destruct (run_call_outcome self c this Hwf Harr); cbn;
    try discriminate; intros [= <-]; (split; [|reflexivity]).
  - now apply wf_inserted.
  - now apply wf_set_mBufferIsNotFull.
  - now apply wf_overflowed.
  - now apply wf_consumed.
  - now apply wf_set_mBufferIsNotEmpty.
  - now apply wf_cleared.
Qed.

(** X10: a thread that makes a sequence of calls with slot-sized arrays
    on a well-formed object never throws, and when the sequence runs to
    its end or stops at a call that waits, it leaves the object well
    formed.  Its one other outcome is undefined behaviour, and then one
    of its non-blocking inserts has found the buffer full and well
    formed with [mReadPosition + (mNumSlots / 2) * mSlotSize] above
    [INT_MAX]; on a ring of at most 2^30 bytes that does not happen. *)
Theorem run_calls_keeps_invariant self cs this :
  wf this -> arrays_ok this cs ->
  match run_calls self cs this with
  | Returns r => layout_ok r.2 /\ state_invariant r.2
  | Waits this' => layout_ok this' /\ state_invariant this'
  | Throws _ => False
  | Undefined =>
      1073741824 < mTotalSize this
      /\ exists cs1 x cs2 got this1,
           cs = cs1 ++ Insert false x :: cs2
           /\ run_calls self cs1 this = Returns (got, this1)
           /\ wf this1
           /\ mFullSlots this1 = mNumSlots this1 /\ ~ int_safe this1
  end.
Proof.
  revert this. induction cs as [|c cs IH]; intros this Hwf Hcs.
  - cbn. exact Hwf.
  - apply Forall_cons in Hcs as [Hc Hcs]. cbn [run_calls].
    pose proof (run_call_wf self c this) as Hstep.
    pose proof (run_call_outcome self c this Hwf Hc) as Hout.
    destruct (run_call self c this) as [[buf this1]| | |] eqn:Hrun; run;
      cbn [fst snd].
    + destruct (Hstep this1 Hwf Hc eq_refl) as [Hwf1 Hs1].
      assert (mTotalSize this1 = mTotalSize this) as HT1.
      { apply (run_call_keeps_config self c). now rewrite Hrun. }
      assert (arrays_ok this1 cs) as Hcs1.
      { unfold arrays_ok, slot_of in *. now rewrite Hs1. }
      specialize (IH this1 Hwf1 Hcs1).
      destruct (run_calls self cs this1) as [[outs this2]| | |] eqn:Hrest;
        run; cbn [fst snd] in *; try exact IH.
      destruct IH as (Hbig & cs1 & x & cs2 & got & this' & -> & Hpre & H).
      split; [lia|].
      exists (c :: cs1), x, cs2,
        (match c with Read _ _ => buf :: got | Insert _ _ => got end), this'.
      split; [reflexivity|]. split; [|exact H].
      cbn [run_calls]. rewrite Hrun. run. cbn [fst snd].
      rewrite Hpre. run. reflexivity.
    + exact (proj1 (Hstep _ Hwf Hc eq_refl)).
    + inversion Hout.
    + inversion Hout as [| | |x Hfull Hunsafe| | |]; subst.
      split.
      * destruct (Z_lt_le_dec 1073741824 (mTotalSize this)) as [|Hsmall];
          [done|].
        destruct Hunsafe. now apply int_safe_small.
      * exists [], x, cs, [], this. split_and!; done.
Qed.

Lemma run_calls_keeps_invariant_witness :
  (wf full_4x4
   /\ arrays_ok full_4x4 [Insert false (zeros 4); Insert true (zeros 4)])
  /\ match
       run_calls 0%nat [Insert false (zeros 4); Insert true (zeros 4)]
         full_4x4
     with
     | Returns r => layout_ok r.2 /\ state_invariant r.2
     | Waits this' => layout_ok this' /\ state_invariant this'
     | Throws _ => False
     | Undefined =>
         1073741824 < mTotalSize full_4x4
         /\ exists cs1 x cs2 got this1,
              [Insert false (zeros 4); Insert true (zeros 4)]
              = cs1 ++ Insert false x :: cs2
              /\ run_calls 0%nat cs1 full_4x4 = Returns (got, this1)
              /\ wf this1
              /\ mFullSlots this1 = mNumSlots this1 /\ ~ int_safe this1
     end.
Proof.
  assert (arrays_ok full_4x4 [Insert false (zeros 4); Insert true (zeros 4)])
    as Hcs by (repeat constructor).
  split; [exact (conj wf_full_4x4 Hcs)|].
  exact (run_calls_keeps_invariant 0%nat _ full_4x4 wf_full_4x4 Hcs).
Defined.


(** ** The last-read slot after the queue has run dry *)

(** Reads that find a slot leave the last slot they return in
    [mLastReadSlot]. *)
Lemma run_reads_last self bs outs this :
  wf this -> Forall (slot_of this) outs -> length bs = length outs ->
  outs <> [] -> Z.of_nat (length outs) <= mFullSlots this ->
  exists this',
    run_calls self (zip_with Read bs outs) this
    = Returns (take (length outs) (queue this), this')
    /\ wf this'
    /\ mFullSlots this' = mFullSlots this - Z.of_nat (length outs)
    /\ mSlotSize this' = mSlotSize this
    /\ mTotalSize this' = mTotalSize this
    /\ last (take (length outs) (queue this)) = Some (mLastReadSlot this').
Proof.
  revert bs this.
  induction outs as [|x xs IH]; intros bs this Hwf Hxs Hlen Hne Hroom;
    [done|].
  destruct bs as [|b bs]; [discriminate|]. cbn [length] in *.
  apply Forall_cons in Hxs as [Hx Hxs].
  assert (wf (consumed this)) as Hwf' by (apply wf_consumed; [done|lia]).
  cbn [zip_with run_calls].
  rewrite run_call_Read_some by (done || lia). run. cbn [fst snd].
  rewrite (queue_consumed this) by (done || lia). cbn [take].
  destruct xs as [|x' xs].
  - destruct bs; [|discriminate]. exists (consumed this).
    cbn [zip_with run_calls length take]. run. cbn [fst snd].
    split_and!; try done.
  - destruct (IH bs (consumed this) Hwf') as (this' & Hrun & ? & Hf & ? & ? & Hlast).
    { exact Hxs. } { cbn [length] in *. lia. } { done. }
    { unfold consumed; fields. lia. }
    exists this'. rewrite Hrun. run. cbn [fst snd].
    unfold consumed in Hf; fields.
    split_and!; try done; [lia|].
    rewrite <- Hlast.
    destruct (take (length (x' :: xs)) (queue (consumed this))) eqn:E;
      [|reflexivity].
    apply (f_equal length) in E. rewrite length_take in E.
    assert (Z.of_nat (length (queue (consumed this))) = mFullSlots this - 1)
      as Hq by (rewrite length_queue; unfold consumed; fields; lia).
    cbn [length] in *. lia.
Qed.

(** X11: when reads (blocking or not) have taken every slot of a
    non-empty queue and a non-blocking read then meets the empty buffer,
    that read returns zeroes and zeroes the whole ring, and
    [mLastReadSlot] still holds the last slot that was queued. *)
Theorem last_read_slot_survives_underrun self bs outs out this :
  wf this -> 0 < mFullSlots this ->
  Forall (slot_of this) outs -> length bs = length outs ->
  Z.of_nat (length outs) = mFullSlots this -> slot_of this out ->
  exists this',
    run_calls self (zip_with Read bs outs ++ [Read false out]) this
    = Returns (queue this ++ [zeros (mSlotSize this)], this')
    /\ last (queue this) = Some (mLastReadSlot this')
    /\ mRingBuffer this' = zeros (mTotalSize this).
Proof.
  intros Hwf Hsome Houts Hbs Hall Hout.
  destruct (run_reads_last self bs outs this)
    as (this1 & Hrun & Hwf1 & Hf1 & Hs1 & HT1 & Hlast); try done; try lia.
  { intros ->. cbn in Hall. lia. }
  assert (length outs = length (queue this)) as Hlen.
  { pose proof (length_queue this). lia. }
  rewrite Hlen, firstn_all in Hrun, Hlast.
  exists (cleared this1). rewrite run_calls_app, Hrun. run. cbn [fst snd].
  cbn [run_calls run_call].
  rewrite readSlotNonBlocking_empty; try done; try lia.
  - run. cbn [fst snd]. rewrite Hs1.
    split_and!; [reflexivity | exact Hlast |].
    unfold cleared; fields. now rewrite HT1.
  - unfold slot_of in *. now rewrite Hs1.
Qed.

Lemma last_read_slot_survives_underrun_witness :
  (wf full_4x4 /\ 0 < mFullSlots full_4x4
   /\ Forall (slot_of full_4x4) (replicate 4 (zeros 4))
   /\ slot_of full_4x4 (zeros 4))
  /\ exists this',
       run_calls 0%nat
         (zip_with Read [true; false; true; false] (replicate 4 (zeros 4))
          ++ [Read false (zeros 4)]) full_4x4
       = Returns (queue full_4x4 ++ [zeros (mSlotSize full_4x4)], this')
       /\ last (queue full_4x4) = Some (mLastReadSlot this')
       /\ mRingBuffer this' = zeros (mTotalSize full_4x4).
Proof.
  assert (Forall (slot_of full_4x4) (replicate 4 (zeros 4))) as Houts
    by (repeat constructor).
  split.
  - split_and!; [exact wf_full_4x4 | reflexivity | exact Houts | reflexivity].
  - exact (last_read_slot_survives_underrun 0%nat
             [true; false; true; false] (replicate 4 (zeros 4)) (zeros 4)
             full_4x4 wf_full_4x4 eq_refl Houts eq_refl eq_refl eq_refl).
Defined.


(** ** Where the overflow recovery is defined *)

(** X12: on a full buffer the non-blocking insert returns exactly when
    [mReadPosition + (mNumSlots / 2) * mSlotSize] is an [int], and has no
    defined behaviour otherwise (the sum overflows before it is reduced
    modulo the total size); it returns on every ring of at most 2^30
    bytes. *)
Theorem overflow_defined_iff (x : list byte) (this : MTRingBuffer_t) :
  wf this -> mFullSlots this = mNumSlots this ->
  (int_safe this <-> exists this', insertSlotNonBlocking x this = Returns this')
  /\ (~ int_safe this <-> insertSlotNonBlocking x this = Undefined)
  /\ (mTotalSize this <= 1073741824 -> int_safe this).
Proof.
  intros Hwf Hfull. rewrite insertSlotNonBlocking_full by done.
  destruct (overflowReset_outcome this Hwf) as [[Hsafe ->]|[Hunsafe ->]].
  - split_and!.
    + split; [eauto|done].
    + split; [done|discriminate].
    + done.
  - split_and!.
    + split; [done|]. intros [? ?]. discriminate.
    + done.
    + intros Hsmall. now apply int_safe_small.
Qed.

Lemma wf_full_2G : wf full_2G.
Proof.
  split; constructor; unfold full_2G; fields.
  - reflexivity.
  - reflexivity.
  - reflexivity.
  - discriminate.
  - apply len_zeros. discriminate.
  - reflexivity.
  - split; [discriminate | reflexivity].
  - reflexivity.
  - split; [discriminate | reflexivity].
  - reflexivity.
  - split; discriminate.
  - reflexivity.
Defined.

Lemma overflow_defined_iff_witness :
  (wf full_2G /\ mFullSlots full_2G = mNumSlots full_2G)
  /\ (int_safe full_2G
      <-> exists this', insertSlotNonBlocking [x00] full_2G = Returns this')
  /\ (~ int_safe full_2G <-> insertSlotNonBlocking [x00] full_2G = Undefined)
  /\ (mTotalSize full_2G <= 1073741824 -> int_safe full_2G).
Proof.
  split; [exact (conj wf_full_2G eq_refl)|].
  exact (overflow_defined_iff [x00] full_2G wf_full_2G eq_refl).
Defined.

(** On [full_2G] the sum is 2147483646 + 1073741823: the call is
    undefined. *)
Example overflow_undefined_2G :
  wf full_2G /\ insertSlotNonBlocking [x00] full_2G = Undefined.
Proof.
  split; [exact wf_full_2G|].
  rewrite insertSlotNonBlocking_full by reflexivity.
  destruct (overflowReset_outcome full_2G wf_full_2G) as [[Hsafe _]|[_ ->]];
    [|reflexivity].
  unfold int_safe, full_2G in Hsafe; fields. now exfalso; apply Hsafe.
Qed.


(** ** Threads: what the wake-ups guarantee *)

(** The non-blocking read on an empty buffer keeps the count. *)
Lemma read_returns_count self b out this buf this' :
  run_call self (Read b out) this = Returns (buf, this') ->
  mFullSlots this = 0 -> mFullSlots this' = 0.
Proof.
  intros Hret Hempty. destruct b; cbn [run_call] in Hret;
    unfold readSlotBlocking, readSlotNonBlocking in Hret;
    rewrite Hempty in Hret; cbn [Z.eqb] in Hret; [discriminate|].
  pose proof (underrun_effect out this _ eq_refl) as He.
  destruct (_ ≫= _) as [[]| | |]; try discriminate.
  injection Hret as <- <-. destruct He as (-> & _). exact Hempty.
Qed.

Lemma readers_awake_step sys e sys' :
  step sys e sys' -> 0 < mNumSlots (object sys) ->
  readers_awake (object sys) ->
  readers_awake (object sys')
  /\ mNumSlots (object sys') = mNumSlots (object sys).
Proof.
  intros Hstep Hn Hawake. unfold readers_awake in *.
  destruct Hstep as [this calls t c Hnone
                    |this calls t c this' Hcall Hrun Hwaits
                    |this calls t c buf this' Hcall Hrun Hret];
    cbn [object] in *.
  - done.
  - split; [|apply (run_call_keeps_config t c this); now rewrite Hwaits].
    apply call_waits in Hwaits
      as [(x & -> & _ & ->)|(out & -> & Hempty & ->)]; fields; done.
  - split; [|apply (run_call_keeps_config t c this); now rewrite Hret].
    destruct c as [b x|b out].
    + apply insert_returns in Hret
        as [_ [(_ & _ & ->)|(_ & Hfull & ->)]]; [done|].
      intros Hne. specialize (Hawake Hne). lia.
    + pose proof (read_returns_count t b out this buf this' Hret) as Hcount.
      apply read_returns in Hret as [-> [(Hsome & _)|(_ & Hempty & _)]].
      * intros Hne. now specialize (Hawake Hne).
      * intros _. now apply Hcount.
Qed.

(** X13: in every run of the threads, a thread is never left waiting
    for a slot while the buffer holds one: whenever the queue of
    [mBufferIsNotEmpty] is not empty, [full_slots] is 0.  Every call
    that adds a slot wakes the waiting readers, and no other call can
    add one. *)
Theorem readers_never_sleep_on_data sys tr sys' :
  exec sys tr sys' -> 0 < mNumSlots (object sys) ->
  readers_awake (object sys) ->
  readers_awake (object sys').
Proof.
  intros Hexec. induction Hexec as [sys|sys e sys1 tr sys2 Hstep Hexec IH];
    intros Hn Hawake; [done|].
  destruct (readers_awake_step sys e sys1 Hstep Hn Hawake) as [Hawake1 Hn1].
  apply IH; [lia|done].
Qed.

Lemma readers_never_sleep_on_data_witness :
  (exists sys', exec sys_parked rendezvous sys'
     /\ 0 < mNumSlots (object sys_parked)
     /\ readers_awake (object sys_parked)
     /\ readers_awake (object sys')).
Proof.
  destruct sys_parked_rendezvous as [sys' Hexec]. exists sys'.
  assert (0 < mNumSlots (object sys_parked)) as Hn by reflexivity.
  assert (readers_awake (object sys_parked)) as Hawake
    by (intros Hne; now destruct Hne).
  split_and!; [exact Hexec | exact Hn | exact Hawake |].
  exact (readers_never_sleep_on_data sys_parked rendezvous sys'
           Hexec Hn Hawake).
Defined.


(** X14: the overflow recovery makes room without waking anybody: when a
    non-blocking insert completes on a full buffer of two slots or more,
    every thread parked in a blocking insert is still parked afterwards,
    although [full_slots < num_slots] now; only a read will wake it. *)
Theorem overflow_wakes_no_writer sys t' x buf sys' t :
  step sys (Completes t' (Insert false x) buf) sys' ->
  wf (object sys) -> 2 <= mNumSlots (object sys) ->
  mFullSlots (object sys) = mNumSlots (object sys) ->
  t ∈ mBufferIsNotFull (object sys) ->
  t ∈ mBufferIsNotFull (object sys')
  /\ mFullSlots (object sys') < mNumSlots (object sys').
Proof.
  intros Hstep Hwf Hn2 Hfull Hin.
  inversion Hstep as [| |this calls t0 c buf0 this' Hcall Hrun Hret]; subst.
  cbn [object] in *.
  assert (1 <= mNumSlots this / 2) as Hhalf
    by (apply Z.div_le_lower_bound; lia).
  cbn [run_call] in Hret.
  rewrite insertSlotNonBlocking_full in Hret by done.
  destruct (overflowReset_outcome this Hwf) as [[_ E]|[_ E]];
    rewrite E in Hret; [|discriminate].
  cbn in Hret. injection Hret as <- <-.
  unfold overflowed; fields. split; [exact Hin|lia].
Qed.

Lemma sys_overflow_completes :
  step sys_overflow (Completes 2%nat (Insert false (zeros 4)) (zeros 4))
    (mkSystem (overflowed (set_mBufferIsNotFull [1%nat] full_4x4))
       (delete 2%nat (calling sys_overflow))).
Proof.
  apply (step_completes _ _ 2%nat (Insert false (zeros 4)) (zeros 4)).
  - apply lookup_insert_eq.
  - intros [H|H]; cbn in H.
    + apply list_elem_of_singleton in H. discriminate.
    + now apply elem_of_nil in H.
  - vm_compute. reflexivity.
Defined.

Lemma overflow_wakes_no_writer_witness :
  (wf (object sys_overflow) /\ 2 <= mNumSlots (object sys_overflow)
   /\ mFullSlots (object sys_overflow) = mNumSlots (object sys_overflow)
   /\ 1%nat ∈ mBufferIsNotFull (object sys_overflow))
  /\ 1%nat ∈ mBufferIsNotFull
               (overflowed (set_mBufferIsNotFull [1%nat] full_4x4))
  /\ mFullSlots (overflowed (set_mBufferIsNotFull [1%nat] full_4x4))
     < mNumSlots (overflowed (set_mBufferIsNotFull [1%nat] full_4x4)).
Proof.
  assert (wf (object sys_overflow)) as Hwf
    by (apply wf_set_mBufferIsNotFull; exact wf_full_4x4).
  assert (2 <= mNumSlots (object sys_overflow)) as Hn2
    by (vm_compute; discriminate).
  assert (1%nat ∈ mBufferIsNotFull (object sys_overflow)) as Hin
    by (apply list_elem_of_singleton; reflexivity).
  split; [exact (conj Hwf (conj Hn2 (conj eq_refl Hin)))|].
  exact (overflow_wakes_no_writer _ _ _ _ _ 1%nat sys_overflow_completes
           Hwf Hn2 eq_refl Hin).
Defined.

(** ** Threads: the state invariant *)

Lemma invariant_step sys e sys' :
  step sys e sys' -> wf (object sys) -> pending_ok sys ->
  match e with
  | Begins _ c => slot_of (object sys) (array c)
  | Parks _ _ | Completes _ _ _ => True
  end ->
  wf (object sys') /\ pending_ok sys'
  /\ mSlotSize (object sys') = mSlotSize (object sys).
Proof.
  intros Hstep Hwf Hpend Hbegin. unfold pending_ok in *.
  destruct Hstep as [this calls t c Hnone
                    |this calls t c this' Hcall Hrun Hwaits
                    |this calls t c buf this' Hcall Hrun Hret];
    cbn [object calling] in *.
  - split_and!; [done| |done]. now apply map_Forall_insert_2.
  - destruct (run_call_wf t c this this' Hwf) as [Hwf' Hs'].
    { exact (Hpend t c Hcall). } { now rewrite Hwaits. }
    split_and!; [done| |done].
    intros i c' Hi. unfold slot_of. rewrite Hs'. exact (Hpend i c' Hi).
  - destruct (run_call_wf t c this this' Hwf) as [Hwf' Hs'].
    { exact (Hpend t c Hcall). } { now rewrite Hret. }
    split_and!; [done| |done].
    apply map_Forall_delete.
    intros i c' Hi. unfold slot_of. rewrite Hs'. exact (Hpend i c' Hi).
Qed.

Lemma step_keeps_total sys e sys' :
  step sys e sys' -> mTotalSize (object sys') = mTotalSize (object sys).
Proof.
  intros [this calls t c Hnone
         |this calls t c this' Hcall Hawake Hrun
         |this calls t c buf this' Hcall Hawake Hrun];
    cbn [object]; [reflexivity| |];
    apply (run_call_keeps_config t c); now rewrite Hrun.
Qed.

(** X15: on a ring of at most 2^30 bytes the state invariant holds in
    every state of every run of the threads: if the object is well
    formed, and the arrays of the pending calls and of the calls that
    begin during the run have the size of a slot, then however the calls
    of the threads interleave, and whichever of them park and wake, the
    object is well formed at the end, and every call that is pending
    there returns or waits when its thread runs it: no interleaving
    leads to a call that throws or has no defined behaviour. *)
Theorem interleaving_keeps_invariant sys tr sys' :
  exec sys tr sys' -> wf (object sys) ->
  mTotalSize (object sys) <= 1073741824 -> pending_ok sys ->
  begins_ok (mSlotSize (object sys)) tr ->
  (layout_ok (object sys') /\ state_invariant (object sys'))
  /\ forall t c, calling sys' !! t = Some c ->
       (exists buf this', run_call t c (object sys') = Returns (buf, this'))
       \/ (exists this', run_call t c (object sys') = Waits this').
Proof.
  intros Hexec. induction Hexec as [sys|sys e sys1 tr sys2 Hstep Hexec IH];
    intros Hwf Hsmall Hpend Hbegins.
  - split; [exact Hwf|]. intros t c Hcall.
    destruct (run_call_outcome t c (object sys) Hwf (Hpend t c Hcall));
      eauto.
    exfalso. eauto using int_safe_small.
  - apply Forall_cons in Hbegins as [Hbegin Hbegins].
    destruct (invariant_step sys e sys1 Hstep Hwf Hpend)
      as (Hwf1 & Hpend1 & Hs1).
    { destruct e; done. }
    apply IH; [done| |done|now rewrite Hs1].
    now rewrite (step_keeps_total sys e sys1).
Qed.

Lemma interleaving_keeps_invariant_witness :
  exists sys',
    exec sys_parked rendezvous sys'
    /\ wf (object sys_parked)
    /\ mTotalSize (object sys_parked) <= 1073741824
    /\ pending_ok sys_parked
    /\ begins_ok (mSlotSize (object sys_parked)) rendezvous
    /\ (layout_ok (object sys') /\ state_invariant (object sys'))
    /\ forall t c, calling sys' !! t = Some c ->
         (exists buf this', run_call t c (object sys') = Returns (buf, this'))
         \/ (exists this', run_call t c (object sys') = Waits this').
Proof.
  destruct sys_parked_rendezvous as [sys' Hexec]. exists sys'.
  assert (wf (object sys_parked)) as Hwf
    by (apply wf_set_mBufferIsNotFull; exact wf_full_1x1).
  assert (mTotalSize (object sys_parked) <= 1073741824) as Hsmall
    by discriminate.
  assert (pending_ok sys_parked) as Hpend.
  { apply map_Forall_singleton. reflexivity. }
  assert (begins_ok (mSlotSize (object sys_parked)) rendezvous) as Hbegins
    by (repeat constructor).
  split; [exact Hexec|]. split; [exact Hwf|]. split; [exact Hsmall|].
  split; [exact Hpend|]. split; [exact Hbegins|].
  exact (interleaving_keeps_invariant sys_parked rendezvous sys'
           Hexec Hwf Hsmall Hpend Hbegins).
Defined.


(** ** Threads: writers and readers are not parked together *)

Lemma div_inv a r : Int.div a 2 = Some r -> r = Z.quot a 2.
Proof.
  unfold Int.div. cbn [Z.eqb]. intros H. now apply checked_inv in H as [-> _].
Qed.

Lemma overflowReset_count this this' :
  overflowReset this = Returns this' ->
  mFullSlots this' = mFullSlots this - Z.quot (mNumSlots this) 2.
Proof.
  unfold overflowReset.
  destruct (Int.div (mNumSlots this) 2) as [h|] eqn:Eh; run; [|done].
  apply div_inv in Eh as ->.
  destruct (Int.mul _ _); run; [|done].
  destruct (Int.add _ _); run; [|done].
  destruct (Int.rem _ _); run; fields; [|done].
  destruct (Int.div (mNumSlots this) 2) as [h|] eqn:Eh; run; [|done].
  apply div_inv in Eh as ->.
  destruct (Int.sub _ _) as [f|] eqn:Ef; run; fields; [|done].
  apply sub_inv in Ef as ->. now intros [= <-].
Qed.

Lemma writers_have_cause_step sys e sys' :
  step sys e sys' -> 0 < mNumSlots (object sys) ->
  writers_have_cause (object sys) ->
  writers_have_cause (object sys').
Proof.
  intros Hstep Hn Hcause. unfold writers_have_cause in *.
  destruct Hstep as [this calls t c Hnone
                    |this calls t c this' Hcall Hrun Hwaits
                    |this calls t c buf this' Hcall Hrun Hret];
    cbn [object] in *.
  - done.
  - apply call_waits in Hwaits
      as [(x & -> & Hfull & ->)|(out & -> & Hempty & ->)]; fields.
    + intros _. lia.
    + done.
  - destruct c as [b x|b out].
    + pose proof Hret as Hret'.
      apply insert_returns in Hret
        as [-> [(_ & -> & _)|(-> & Hfull & _)]].
      * intros Hne. specialize (Hcause Hne). lia.
      * intros _. cbn [run_call] in Hret'.
        unfold insertSlotNonBlocking in Hret'.
        rewrite Hfull, Z.eqb_refl in Hret'.
        destruct (overflowReset this) as [this1| | |] eqn:E;
          try discriminate.
        cbn in Hret'. injection Hret' as <- <-.
        apply overflowReset_count in E as ->.
        rewrite Hfull, Z.quot_div_nonneg by lia.
        pose proof (half_range _ Hn). lia.
    + pose proof (read_returns_count t b out this buf this' Hret) as Hcount.
      apply read_returns in Hret as [_ [(_ & _ & ->)|(_ & Hempty & ->)]].
      * done.
      * intros Hne. specialize (Hcause Hne). lia.
Qed.

(** X16: in every run of the threads that starts with nobody parked,
    a thread waiting for room and a thread waiting for a slot are never
    parked at the same time: one of the two wait queues is always
    empty. *)
Theorem never_both_parked sys tr sys' :
  exec sys tr sys' -> 0 < mNumSlots (object sys) ->
  mBufferIsNotFull (object sys) = [] ->
  mBufferIsNotEmpty (object sys) = [] ->
  mBufferIsNotFull (object sys') = [] \/ mBufferIsNotEmpty (object sys') = [].
Proof.
  intros Hexec Hn Hnf Hne.
  assert (readers_awake (object sys') /\ writers_have_cause (object sys'))
    as [Hawake Hcause].
  { assert (readers_awake (object sys) /\ writers_have_cause (object sys))
      as Hinit.
    { unfold readers_awake, writers_have_cause. now rewrite Hnf, Hne. }
    clear Hnf Hne. revert Hn Hinit.
    induction Hexec as [sys|sys e sys1 tr sys2 Hstep Hexec IH];
      intros Hn [Hawake Hcause]; [done|].
    destruct (readers_awake_step sys e sys1 Hstep Hn Hawake)
      as [Hawake1 Hn1].
    apply IH; [lia|]. split; [done|].
    now apply (writers_have_cause_step sys e sys1). }
  destruct (mBufferIsNotFull (object sys')) as [|t q] eqn:Ef; [now left|].
  destruct (mBufferIsNotEmpty (object sys')) as [|t' q'] eqn:Ee; [now right|].
  exfalso. unfold readers_awake, writers_have_cause in *.
  rewrite Ef in Hcause. rewrite Ee in Hawake.
  specialize (Hcause ltac:(done)). specialize (Hawake ltac:(done)). lia.
Qed.

Lemma sys_full_rendezvous :
  exists sys',
    exec sys_full (Parks 1%nat (Insert true [x07]) :: rendezvous) sys'.
Proof.
  destruct sys_parked_rendezvous as [sys' Hexec]. exists sys'.
  exact (exec_cons _ _ _ _ _ sys_full_parks Hexec).
Defined.

Lemma never_both_parked_witness :
  exists sys',
    exec sys_full (Parks 1%nat (Insert true [x07]) :: rendezvous) sys'
    /\ 0 < mNumSlots (object sys_full)
    /\ mBufferIsNotFull (object sys_full) = []
    /\ mBufferIsNotEmpty (object sys_full) = []
    /\ (mBufferIsNotFull (object sys') = []
        \/ mBufferIsNotEmpty (object sys') = []).
Proof.
  destruct sys_full_rendezvous as [sys' Hexec]. exists sys'.
  assert (0 < mNumSlots (object sys_full)) as Hn by reflexivity.
  split; [exact Hexec|]. split; [exact Hn|].
  split; [reflexivity|]. split; [reflexivity|].
  exact (never_both_parked sys_full _ sys' Hexec Hn eq_refl eq_refl).
Defined.

(** ** When the positions meet *)

(** X17: on a well-formed object the read and write positions are equal
    exactly when the buffer is empty or full; this is why the object
    keeps a count of the full slots beside the positions. *)
Theorem positions_meet_iff (this : MTRingBuffer_t) :
  wf this ->
  mReadPosition this = mWritePosition this
  <-> mFullSlots this = 0 \/ mFullSlots this = mNumSlots this.
Proof.
  intros Hwf. destruct_wf Hwf.
  pose proof (write_pos_offset _ _ Hs Hn _ _ _ Hw Hc) as Hwpos.
  split.
  - intros Heq. rewrite Heq, Z.sub_diag, Z.mod_0_l in Hc by lia.
    symmetry in Hc. rewrite Z.mul_comm, Zmult_mod_distr_l in Hc.
    assert (mFullSlots this mod mNumSlots this = 0) as Hm by nia.
    destruct (decide (mFullSlots this = mNumSlots this)) as [|Hne];
      [now right|left].
    rewrite Z.mod_small in Hm by lia. exact Hm.
  - intros [Hempty|Hfull].
    + rewrite Hwpos, Hempty, Z.mul_0_l, Z.add_0_r, Z.mod_small by lia.
      reflexivity.
    + rewrite Hwpos, Hfull.
      replace (mNumSlots this * mSlotSize this)
        with (1 * (mSlotSize this * mNumSlots this)) by ring.
      rewrite Z.mod_add, Z.mod_small by lia. reflexivity.
Qed.

Lemma positions_meet_iff_witness :
  wf full_4x4
  /\ (mReadPosition full_4x4 = mWritePosition full_4x4
      <-> mFullSlots full_4x4 = 0 \/ mFullSlots full_4x4 = mNumSlots full_4x4).
Proof.
  split; [exact wf_full_4x4|]. exact (positions_meet_iff full_4x4 wf_full_4x4).
Defined.


(** ** Producer and consumer in step *)

(** X18: when inserts and reads alternate on a buffer that has room, no
    call waits or recovers, the count of full slots stays as it was, and
    the buffer is a delay line: the reads return the slots that were
    queued at the start and then the inserted slots, each one
    [full_slots] reads after its insert. *)
Theorem alternating_calls_delay self bs bs' xs outs this :
  wf this -> mFullSlots this < mNumSlots this ->
  Forall (slot_of this) xs -> Forall (slot_of this) outs ->
  length bs = length xs -> length bs' = length outs ->
  length outs = length xs ->
  exists this',
    run_calls self (alternate (zip_with Insert bs xs) (zip_with Read bs' outs))
      this
    = Returns (take (length xs) (queue this ++ xs), this')
    /\ queue this' = drop (length xs) (queue this ++ xs)
    /\ mFullSlots this' = mFullSlots this.
Proof.
  revert bs bs' outs this.
  induction xs as [|x xs IH];
    intros bs bs' outs this Hwf Hroom Hxs Houts Hbs Hbs' Hsame.
  - destruct bs; [|discriminate]. exists this. cbn.
    now rewrite app_nil_r.
  - destruct bs as [|b bs]; [discriminate|].
    destruct outs as [|out outs]; [discriminate|].
    destruct bs' as [|b' bs']; [discriminate|].
    apply Forall_cons in Hxs as [Hx Hxs].
    apply Forall_cons in Houts as [Hout Houts].
    cbn [length] in *.
    pose proof Hwf as [_ [_ _ _ _ Hf _]].
    pose proof (wf_inserted x this Hwf Hx Hroom) as Hwf1.
    assert (0 < mFullSlots (inserted x this)) as Hsome1
      by (unfold inserted; fields; lia).
    pose proof (wf_consumed _ Hwf1 Hsome1) as Hwf2.
    pose proof (queue_consumed _ Hwf1 Hsome1) as Hq.
    rewrite queue_inserted in Hq by done.
    destruct (IH bs bs' outs (consumed (inserted x this)))
      as (this' & Hrun & Hq' & Hf'); try done; try lia.
    { unfold consumed, inserted; fields. lia. }
    exists this'. cbn [zip_with alternate run_calls].
    rewrite run_call_Insert_room by done. run. cbn [fst snd].
    rewrite run_call_Read_some by done. run. cbn [fst snd].
    rewrite Hrun. run. cbn [fst snd].
    replace (queue this ++ x :: xs) with ((queue this ++ [x]) ++ xs)
      by (now rewrite <- app_assoc).
    rewrite Hq. cbn [app take drop].
    split_and!; [reflexivity | exact Hq' |].
    rewrite Hf'. unfold consumed, inserted; fields. lia.
Qed.

Lemma alternating_calls_delay_witness :
  (wf empty_1x2 /\ mFullSlots empty_1x2 < mNumSlots empty_1x2
   /\ Forall (slot_of empty_1x2) [[x01]; [x02]]
   /\ Forall (slot_of empty_1x2) [[xff]; [xff]])
  /\ exists this',
       run_calls 0%nat
         (alternate (zip_with Insert [true; false] [[x01]; [x02]])
            (zip_with Read [false; true] [[xff]; [xff]])) empty_1x2
       = Returns (take (length [[x01]; [x02]])
                    (queue empty_1x2 ++ [[x01]; [x02]]), this')
       /\ queue this'
          = drop (length [[x01]; [x02]]) (queue empty_1x2 ++ [[x01]; [x02]])
       /\ mFullSlots this' = mFullSlots empty_1x2.
Proof.
  assert (Forall (slot_of empty_1x2) [[x01]; [x02]]) as Hxs
    by (repeat constructor).
  assert (Forall (slot_of empty_1x2) [[xff]; [xff]]) as Houts
    by (repeat constructor).
  split.
  - split_and!; [exact wf_empty_1x2 | reflexivity | exact Hxs | exact Houts].
  - exact (alternating_calls_delay 0%nat [true; false] [false; true]
             [[x01]; [x02]] [[xff]; [xff]] empty_1x2 wf_empty_1x2 eq_refl
             Hxs Houts eq_refl eq_refl eq_refl).
Defined.

(** From the constructor on, with four slots: the first two reads return
    the zero slots the constructor has queued, the third the first
    inserted slot. *)
Example delay_after_construction :
  exists this outs this',
    MTRingBuffer 1 4 = Returns this
    /\ run_calls 0%nat
         (alternate (zip_with Insert [true; true; true] [[x01]; [x02]; [x03]])
            (zip_with Read [true; true; true] [[xff]; [xff]; [xff]])) this
       = Returns (outs, this')
    /\ outs = [[x00]; [x00]; [x01]].
Proof.
  do 3 eexists. split; [vm_compute; reflexivity|].
  split; [vm_compute; reflexivity|]. reflexivity.
Qed.
